(** * cc-licenses: [licenses/models.py]

    A shallow embedding of [LegalCode.get_pofile_with_english_msgids]
    (the translation catalog reconciliation) and of [LegalCode.branch_name],
    with the properties the specification states about them.

    Python objects live in a store: a [polib.POFile] is a mutable list of
    references to mutable [polib.POEntry] objects, [copy.deepcopy] allocates
    new objects, and the loops of [get_pofile_with_english_msgids] assign to
    attributes of the copies. *)

From Stdlib Require Import Ascii String.
From stdpp Require Import base option list gmap strings sorting.

Local Open Scope string_scope.
Local Open Scope list_scope.

(** ** Data model *)

(** [licenses.models.License]: the fields [LegalCode] reads. *)
Record License := mkLicense {
  license_code : string;
  version : string;
  jurisdiction_code : string;
}.

(** [licenses.models.LegalCode]. *)
Record LegalCode := mkLegalCode {
  license : License;
  language_code : string;
}.

(** A [polib.POEntry]: the two attributes the code reads and assigns. *)
Record POEntry := mkPOEntry {
  msgid : string;
  msgstr : string;
}.

(** Object identities. *)
Definition loc := positive.

(** A stored object: a [POEntry], or a [POFile], the list of its entries'
    identities. *)
Inductive Obj :=
  | ObjEntry (e : POEntry)
  | ObjFile (items : list loc).

Abbreviation Heap := (gmap loc Obj).

(** Exceptions: the [ValueError] of [get_pofile_with_english_msgids], and
    what the ORM query of [get_english_pofile] may raise. *)
Inductive Exn :=
  | ValueError (msg : string)
  | DoesNotExist
  | MultipleObjectsReturned.

(** The outcome of a computation in a store: a value, a raised exception
    (both with the store they leave), or [Stuck] on a store where a
    reference is dangling or of the wrong class, which Python excludes. *)
Inductive Res (A : Type) :=
  | Val (a : A) (h : Heap)
  | Exc (e : Exn) (h : Heap)
  | Stuck.
Arguments Val {A} a h.
Arguments Exc {A} e h.
Arguments Stuck {A}.

Definition M (A : Type) : Type := Heap → Res A.

#[global] Instance M_ret : MRet M := λ A a h, Val a h.

#[global] Instance M_bind : MBind M := λ A B f m h,
  match m h with
  | Val a h' => f a h'
  | Exc e h' => Exc e h'
  | Stuck => Stuck
  end.

Definition raise {A} (e : Exn) : M A := λ h, Exc e h.

(** ** Store operations *)

(** [POEntry(...)], [POFile()]: a new object. *)
Definition alloc (o : Obj) : M loc := λ h,
  let l := fresh (dom h) in Val l (<[l := o]> h).

(** The entry object behind a reference. *)
Definition get_entry (l : loc) : M POEntry := λ h,
  match h !! l with
  | Some (ObjEntry e) => Val e h
  | _ => Stuck
  end.

(** [entry.msgid] and [entry.msgstr]. *)
Definition get_msgid (l : loc) : M string := e ← get_entry l; mret (msgid e).
Definition get_msgstr (l : loc) : M string := e ← get_entry l; mret (msgstr e).

(** [entry.msgid = s]. *)
Definition set_msgid (l : loc) (s : string) : M unit := λ h,
  match h !! l with
  | Some (ObjEntry e) => Val () (<[l := ObjEntry (mkPOEntry s (msgstr e))]> h)
  | _ => Stuck
  end.

(** [entry.msgstr = s]. *)
Definition set_msgstr (l : loc) (s : string) : M unit := λ h,
  match h !! l with
  | Some (ObjEntry e) => Val () (<[l := ObjEntry (mkPOEntry (msgid e) s)]> h)
  | _ => Stuck
  end.

(** The references a [POFile] holds, in order: what [for entry in pofile]
    visits. *)
Definition get_items (p : loc) : M (list loc) := λ h,
  match h !! p with
  | Some (ObjFile ls) => Val ls h
  | _ => Stuck
  end.

(** [pofile.append(item)]. *)
Definition append_item (p : loc) (l : loc) : M unit := λ h,
  match h !! p with
  | Some (ObjFile ls) => Val () (<[p := ObjFile (ls ++ [l])]> h)
  | _ => Stuck
  end.

(** [for x in xs: body(x)]; an exception leaves the loop. *)
Fixpoint for_each {A} (xs : list A) (body : A → M unit) : M unit :=
  match xs with
  | [] => mret ()
  | x :: xs' => body x;; for_each xs' body
  end.

(** ** [copy.deepcopy] of a [POFile] *)

(** Copy of one entry under the memo: an object copied before is not copied
    again, its copy is reused.  The attributes are strings, which
    [deepcopy] shares. *)
Definition deepcopy_entry (memo : gmap loc loc) (l : loc)
    : M (loc * gmap loc loc) :=
  match memo !! l with
  | Some l' => mret (l', memo)
  | None =>
      e ← get_entry l;
      l' ← alloc (ObjEntry e);
      mret (l', <[l := l']> memo)
  end.

(** The items of the list, copied and appended to the new file [p'] one
    after the other. *)
Fixpoint deepcopy_items (memo : gmap loc loc) (p' : loc) (ls : list loc)
    : M unit :=
  match ls with
  | [] => mret ()
  | l :: ls' =>
      r ← deepcopy_entry memo l;
      append_item p' r.1;;
      deepcopy_items r.2 p' ls'
  end.

(** [deepcopy(pofile)]: a new empty file, entered in the memo as the copy
    of [p], then the copies of the items. *)
Definition deepcopy (p : loc) : M loc :=
  ls ← get_items p;
  p' ← alloc (ObjFile []);
  deepcopy_items {[p := p']} p' ls;;
  mret p'.

(** ** The environment of a [LegalCode] *)

(** What the methods reach outside the store and outside these sources:
    the setting [settings.TRANSLATION_REPOSITORY_DIRECTORY]; [os.path.join]
    on four components; [i18n.translation.get_translation_object], which
    caches the translation objects as singletons, so that the [pofile] of
    the translation object of a file and language is one object of the
    store; and the ORM query [type(self).objects.get]. *)
Record World := mkWorld {
  TRANSLATION_REPOSITORY_DIRECTORY : string;
  os_path_join : string → string → string → string → string;
  translation_pofile : string → string → loc;
  objects_get : License → string → Exn + LegalCode;
}.

(** ** String methods

    A Python string is modelled by the bytes of its UTF-8 form.  [lower]
    maps the bytes [A]-[Z] to [a]-[z] and leaves every other byte: that is
    [str.lower] on ASCII strings, and on the characters that have no
    lowercase form, which [str.lower] leaves as they are; it is not
    [str.lower] on the other characters of Unicode.  [is_upper] is the
    test for an uppercase letter among the ASCII characters. *)
Definition is_upper (c : ascii) : bool :=
  (65 <=? nat_of_ascii c)%nat && (nat_of_ascii c <=? 90)%nat.

Definition lower_char (c : ascii) : ascii :=
  if is_upper c then ascii_of_nat (nat_of_ascii c + 32) else c.

(** [s.lower()]. *)
Fixpoint lower (s : string) : string :=
  match s with
  | EmptyString => EmptyString
  | String c s' => String (lower_char c) (lower s')
  end.

(** [s.replace(old, new)] for a pattern [old] of one character. *)
Fixpoint replace (old : ascii) (new : string) (s : string) : string :=
  match s with
  | EmptyString => EmptyString
  | String c s' =>
      if Ascii.eqb c old then new +:+ replace old new s'
      else String c (replace old new s')
  end.

(** [sep.join(parts)]. *)
Fixpoint join (sep : string) (parts : list string) : string :=
  match parts with
  | [] => ""
  | [x] => x
  | x :: rest => x +:+ sep +:+ join sep rest
  end.

(** [s.startswith(p)]. *)
Definition startswith (s p : string) : bool := String.prefix p s.

(** The truth value of a string: non-empty. *)
Definition truthy (s : string) : bool :=
  match s with EmptyString => false | _ => true end.

(** ** The methods of [LegalCode] *)

Section Models.

(** [i18n.DEFAULT_LANGUAGE_CODE]: the package [i18n] is outside these
    sources. *)
Variable DEFAULT_LANGUAGE_CODE : string.

Variable w : World.

(** [LegalCode.translation_filename]. *)
Definition translation_filename (self : LegalCode) : string :=
  let license := license self in
  let filename_parts :=
    [lower (license_code license); version license;
     jurisdiction_code license; language_code self] in
  let filename_parts := List.filter truthy filename_parts in
  let filename := join "_" filename_parts +:+ ".po" in
  let subdir :=
    lower (license_code license) +:+ "/" +:+
    (if truthy (version license) then version license else "None") in
  os_path_join w (TRANSLATION_REPOSITORY_DIRECTORY w) "translations"
    subdir filename.

(** The object [self.get_translation_object().pofile]. *)
Definition pofile_of (self : LegalCode) : loc :=
  translation_pofile w (translation_filename self) (language_code self).

(** [LegalCode.get_pofile], through [LegalCode.get_translation_object]. *)
Definition get_pofile (self : LegalCode) : M loc :=
  mret (pofile_of self).

(** [LegalCode.get_english_pofile]. *)
Definition get_english_pofile (self : LegalCode) : M loc :=
  if decide (language_code self ≠ DEFAULT_LANGUAGE_CODE) then
    match objects_get w (license self) DEFAULT_LANGUAGE_CODE with
    | inl e => raise e
    | inr english_legalcode => get_pofile english_legalcode
    end
  else get_pofile self.

(** [{entry.msgid: entry.msgstr for entry in english_pofile}], from the
    dictionary [d] built so far. *)
Fixpoint dict_comprehension (d : gmap string string) (ls : list loc)
    : M (gmap string string) :=
  match ls with
  | [] => mret d
  | l :: ls' =>
      e ← get_entry l;
      dict_comprehension (<[msgid e := msgstr e]> d) ls'
  end.

(** The message of the [ValueError] for a key. *)
Definition no_message_for (key : string) : string :=
  "Our English pofile has no message for the key " +:+ key +:+
  ", something is wrong with the translation files.".

(** The specification calls this error [MissingDefaultTranslation]. *)
Definition MissingDefaultTranslation (key : string) : Exn :=
  ValueError (no_message_for key).

(** [LegalCode.get_pofile_with_english_msgids]. *)
Definition get_pofile_with_english_msgids (self : LegalCode) : M loc :=
  pofile ← get_pofile self;
  new_pofile ← deepcopy pofile;
  if decide (language_code self = DEFAULT_LANGUAGE_CODE) then
    entries ← get_items new_pofile;
    for_each entries (λ entry,
      s ← get_msgstr entry;
      set_msgid entry s;;
      set_msgstr entry "");;
    mret new_pofile
  else
    english_pofile ← get_english_pofile self;
    english_entries ← get_items english_pofile;
    internal_key_to_english_message ← dict_comprehension ∅ english_entries;
    entries ← get_items new_pofile;
    for_each entries (λ entry,
      key ← get_msgid entry;
      match internal_key_to_english_message !! key with
      | None => raise (MissingDefaultTranslation key)
      | Some english => set_msgid entry english
      end);;
    mret new_pofile.

End Models.


(** ** [LegalCode.branch_name] *)

(** The list [parts] as the method builds it. *)
Definition branch_name_parts (self : LegalCode) : list string :=
  let license := license self in
  let parts := [] in
  let parts :=
    if startswith (license_code license) "by"
       && bool_decide (version license = "4.0")
    then parts ++ ["cc4"]
    else parts ++ [license_code license; version license] in
  let parts := parts ++ [language_code self] in
  if truthy (jurisdiction_code license)
  then parts ++ [jurisdiction_code license]
  else parts.

Definition branch_name (self : LegalCode) : string :=
  lower (replace "." "" (replace "_" "-" (join "-" (branch_name_parts self)))).

(** ** Catalogs as values *)

(** The store holds the entries [C] behind the references [ls]. *)
Definition is_entries (h : Heap) (ls : list loc) (C : list POEntry) : Prop :=
  Forall2 (λ l e, h !! l = Some (ObjEntry e)) ls C.

(** [p] is a [POFile] as [polib] loads one: its items [ls] are distinct
    entry objects, holding the catalog [C]. *)
Definition pofile_at (h : Heap) (p : loc) (ls : list loc) (C : list POEntry)
    : Prop :=
  h !! p = Some (ObjFile ls) ∧ NoDup ls ∧ is_entries h ls C.

Definition is_catalog (h : Heap) (p : loc) (C : list POEntry) : Prop :=
  ∃ ls, pofile_at h p ls C.

(** The catalog read from the store. *)
Definition read_entry (h : Heap) (l : loc) : option POEntry :=
  match h !! l with
  | Some (ObjEntry e) => Some e
  | _ => None
  end.

Definition catalog (h : Heap) (p : loc) : option (list POEntry) :=
  match h !! p with
  | Some (ObjFile ls) => mapM (read_entry h) ls
  | _ => None
  end.

(** What a caller observes of a run: the catalog returned, or the error. *)
Definition outcome (r : Res loc) : option (Exn + list POEntry) :=
  match r with
  | Val p h => inr <$> catalog h p
  | Exc e _ => Some (inl e)
  | Stuck => None
  end.

(** The keys of a catalog. *)
Definition keys (C : list POEntry) : list string := msgid <$> C.

(** The text a catalog [D] has for a key: that of the last entry with the
    key. *)
Definition text_for (D : list POEntry) (key : string) : option string :=
  msgstr <$> last (filter (λ e, msgid e = key) D).

(** The dictionary the comprehension builds, on values. *)
Definition key_to_message (D : list POEntry) : gmap string string :=
  foldl (λ d e, <[msgid e := msgstr e]> d) ∅ D.

(** The entries of the default-language branch, on values. *)
Definition english_as_msgid (e : POEntry) : POEntry :=
  mkPOEntry (msgstr e) "".

(** The loop of the other branch, on values: the new entries, or the first
    key without a message. *)
Fixpoint with_messages (d : gmap string string) (C : list POEntry)
    : string + list POEntry :=
  match C with
  | [] => inr []
  | e :: C' =>
      match d !! msgid e with
      | None => inl (msgid e)
      | Some english =>
          match with_messages d C' with
          | inl key => inl key
          | inr out => inr (mkPOEntry english (msgstr e) :: out)
          end
      end
  end.

(** ** The state of a [deepcopy]

    While the items of the file [p] of the store [h0] are copied into the
    new file [p']: no object of [h0] has changed; the new file holds the
    copies [acc] made so far; the memo, apart from [p], sends entries of
    [h0] to new objects with the same attributes, different entries to
    different objects. *)
Record copying (h0 : Heap) (p p' : loc)
    (h : Heap) (memo : gmap loc loc) (acc : list loc) : Prop := {
  copying_frame : h0 ⊆ h;
  copying_file : h !! p' = Some (ObjFile acc);
  copying_memo : ∀ l l', memo !! l = Some l' →
    (l = p ∧ l' = p') ∨
    (l' ≠ p' ∧ h0 !! l' = None ∧
       ∃ e, h0 !! l = Some (ObjEntry e) ∧ h !! l' = Some (ObjEntry e));
  copying_inj : ∀ l1 l2 l',
    memo !! l1 = Some l' → memo !! l2 = Some l' → l1 = l2;
}.
Arguments copying_frame {h0 p p' h memo acc}.
Arguments copying_file {h0 p p' h memo acc}.
Arguments copying_memo {h0 p p' h memo acc}.
Arguments copying_inj {h0 p p' h memo acc}.

(** The reconciliation on values: what a call returns for the catalog [C]
    of the legal code and the catalog [D] of its English legal code.
    [run_on_values] below proves that the method computes it. *)
Definition on_values (is_default : bool) (C D : list POEntry)
    : Exn + list POEntry :=
  if is_default then inr (english_as_msgid <$> C)
  else
    match with_messages (key_to_message D) C with
    | inl key => inl (MissingDefaultTranslation key)
    | inr out => inr out
    end.

Section Inputs.

Variable DEFAULT_LANGUAGE_CODE : string.

(** [self.language_code == DEFAULT_LANGUAGE_CODE]. *)
Definition is_default (self : LegalCode) : bool :=
  bool_decide (language_code self = DEFAULT_LANGUAGE_CODE).

(** The catalogs a call reads: in the store [h], the file of [self] holds
    [C]; and for another language than the default one, the query finds
    the English legal code, whose file holds [D]. *)
Definition inputs (w : World) (self : LegalCode) (h : Heap)
    (C D : list POEntry) : Prop :=
  is_catalog h (pofile_of w self) C ∧
  (language_code self ≠ DEFAULT_LANGUAGE_CODE →
   ∃ english_legalcode,
     objects_get w (license self) DEFAULT_LANGUAGE_CODE
       = inr english_legalcode ∧
     is_catalog h (pofile_of w english_legalcode) D).

End Inputs.

(** The catalogs of the specification's example. *)
Definition example_D : list POEntry :=
  [mkPOEntry "s1a" "Adapted Material"; mkPOEntry "s1b" "Copyright"].

Definition example_C : list POEntry :=
  [mkPOEntry "s1a" "Matériel Adapté"; mkPOEntry "s1b" "Droit d'auteur"].

(** ** An example world

    The BY-SA 4.0 license in English, the default language, and in French,
    with the catalogs of the specification's example loaded in a store. *)

Definition by_sa_4 : License := mkLicense "by-sa" "4.0" "".
Definition english : LegalCode := mkLegalCode by_sa_4 "en".
Definition french : LegalCode := mkLegalCode by_sa_4 "fr".

Definition example_world : World := {|
  TRANSLATION_REPOSITORY_DIRECTORY := "/cc-licenses-data";
  os_path_join a b c d := a +:+ "/" +:+ b +:+ "/" +:+ c +:+ "/" +:+ d;
  translation_pofile filename lang :=
    if decide (filename = "/cc-licenses-data/translations/by-sa/4.0/by-sa_4.0_en.po")
    then 1 else 4;
  objects_get lic lang := inr (mkLegalCode lic lang);
|}%positive.

Definition example_store : Heap :=
  {[ 1 := ObjFile [2; 3];
     2 := ObjEntry (mkPOEntry "s1a" "Adapted Material");
     3 := ObjEntry (mkPOEntry "s1b" "Copyright");
     4 := ObjFile [5; 6];
     5 := ObjEntry (mkPOEntry "s1a" "Matériel Adapté");
     6 := ObjEntry (mkPOEntry "s1b" "Droit d'auteur") ]}%positive.

(** The same catalogs, loaded at other identities. *)
Definition example_world' : World := {|
  TRANSLATION_REPOSITORY_DIRECTORY := "/srv/data";
  os_path_join a b c d := a +:+ "/" +:+ b +:+ "/" +:+ c +:+ "/" +:+ d;
  translation_pofile filename lang :=
    if decide (lang = "en") then 20 else 10;
  objects_get lic lang := inr (mkLegalCode lic lang);
|}%positive.

Definition example_store' : Heap :=
  {[ 10 := ObjFile [12; 11];
     11 := ObjEntry (mkPOEntry "s1b" "Droit d'auteur");
     12 := ObjEntry (mkPOEntry "s1a" "Matériel Adapté");
     20 := ObjFile [21; 22];
     21 := ObjEntry (mkPOEntry "s1a" "Adapted Material");
     22 := ObjEntry (mkPOEntry "s1b" "Copyright") ]}%positive.

(** A French catalog with the key [s1c], which the English one lacks. *)
Definition example_C_s1c : list POEntry :=
  [mkPOEntry "s1a" "Matériel Adapté"; mkPOEntry "s1c" "Droit d'auteur";
   mkPOEntry "s1b" "Droits"].

Definition example_store_s1c : Heap :=
  {[ 1 := ObjFile [2; 3];
     2 := ObjEntry (mkPOEntry "s1a" "Adapted Material");
     3 := ObjEntry (mkPOEntry "s1b" "Copyright");
     4 := ObjFile [5; 6; 7];
     5 := ObjEntry (mkPOEntry "s1a" "Matériel Adapté");
     6 := ObjEntry (mkPOEntry "s1c" "Droit d'auteur");
     7 := ObjEntry (mkPOEntry "s1b" "Droits") ]}%positive.

(** An English catalog with the key [s1a] twice. *)
Definition example_D_twice : list POEntry :=
  [mkPOEntry "s1a" "Adapted Material"; mkPOEntry "s1b" "Copyright";
   mkPOEntry "s1a" "Adaptation"].

Definition example_store_twice : Heap :=
  {[ 1 := ObjFile [2; 3; 7];
     2 := ObjEntry (mkPOEntry "s1a" "Adapted Material");
     3 := ObjEntry (mkPOEntry "s1b" "Copyright");
     7 := ObjEntry (mkPOEntry "s1a" "Adaptation");
     4 := ObjFile [5; 6];
     5 := ObjEntry (mkPOEntry "s1a" "Matériel Adapté");
     6 := ObjEntry (mkPOEntry "s1b" "Droit d'auteur") ]}%positive.

(** A file that holds one entry object twice, which [polib] never loads. *)
Definition aliased_store : Heap :=
  {[ 1 := ObjFile [2; 2];
     2 := ObjEntry (mkPOEntry "s1a" "Adapted Material") ]}%positive.

(** * The other methods of the module *)

(** ** More string methods *)

Definition is_lower (c : ascii) : bool :=
  (97 <=? nat_of_ascii c)%nat && (nat_of_ascii c <=? 122)%nat.

Definition upper_char (c : ascii) : ascii :=
  if is_lower c then ascii_of_nat (nat_of_ascii c - 32) else c.

(** [s.upper()], on ASCII as [lower]. *)
Fixpoint upper (s : string) : string :=
  match s with
  | EmptyString => EmptyString
  | String c s' => String (upper_char c) (upper s')
  end.

(** [s.find(sub)]: the lowest index at which [sub] occurs in [s], or [-1];
    [find_from i] is the search in a suffix that starts at index [i]. *)
Fixpoint find_from (i : nat) (s sub : string) : Z :=
  if String.prefix sub s then Z.of_nat i
  else
    match s with
    | EmptyString => (-1)%Z
    | String _ s' => find_from (S i) s' sub
    end.

Definition find (s sub : string) : Z := find_from 0 s sub.

(** [c in s] for a character [c]. *)
Fixpoint contains_char (c : ascii) (s : string) : bool :=
  match s with
  | EmptyString => false
  | String c0 s' => Ascii.eqb c0 c || contains_char c s'
  end.

(** [s.split(sep)[0]] for a separator [sep] of one character: what stands
    before the first [sep], all of [s] when there is none. *)
Fixpoint split_first (sep : ascii) (s : string) : string :=
  match s with
  | EmptyString => EmptyString
  | String c s' =>
      if Ascii.eqb c sep then EmptyString else String c (split_first sep s')
  end.

(** [string.ascii_lowercase] and [string.ascii_uppercase]. *)
Definition ascii_lowercase : string := "abcdefghijklmnopqrstuvwxyz".
Definition ascii_uppercase : string := "ABCDEFGHIJKLMNOPQRSTUVWXYZ".

(** ** List methods, with the exceptions they raise *)

(** [ValueError] of [list.index] for an absent element, [IndexError] of an
    index past the end of a string. *)
Inductive ListError :=
  | NotInList (x : string)
  | IndexOutOfRange.

(** The position of the first [x] in [xs]. *)
Fixpoint position (x : string) (xs : list string) : option nat :=
  match xs with
  | [] => None
  | y :: ys => if decide (y = x) then Some 0 else S <$> position x ys
  end.

(** [xs.index(x)]. *)
Definition list_index (xs : list string) (x : string) : ListError + nat :=
  match position x xs with
  | Some i => inr i
  | None => inl (NotInList x)
  end.

(** [xs.insert(i, x)] for [i >= 0]: before the element at [i], at the end
    when [i] is past it. *)
Definition list_insert_at (i : nat) (x : string) (xs : list string)
    : list string :=
  take i xs ++ x :: drop i xs.

(** [LETTERS[i]]. *)
Definition letter (LETTERS : string) (i : nat) : ListError + ascii :=
  match String.get i LETTERS with
  | Some c => inr c
  | None => inl IndexOutOfRange
  end.

(** ** [License.fat_code], [LegalCode.fat_code], [License.resource_name] *)

Definition license_fat_code (self : License) : string :=
  let license := self in
  let s := license_code license +:+ " " +:+ version license in
  let s := if startswith (license_code license) "by" then "CC " +:+ s else s in
  let s :=
    if truthy (jurisdiction_code license)
    then s +:+ " " +:+ jurisdiction_code license
    else s in
  upper s.

Definition fat_code (self : LegalCode) : string :=
  license_fat_code (license self).

Definition resource_name (self : License) : string := license_fat_code self.

(** ** [License.resource_slug] *)

Definition resource_slug (self : License) : string :=
  let slug :=
    if truthy (jurisdiction_code self)
    then license_code self +:+ "_" +:+ version self +:+ "_" +:+
         jurisdiction_code self
    else license_code self +:+ "_" +:+ version self in
  replace "." "" slug.

(** ** [License.sampling_plus],
       [License.include_share_adapted_material_clause] *)

Definition sampling_plus (self : License) : bool :=
  bool_decide (license_code self ∈ ["nc-sampling+"; "sampling+"]).

Definition include_share_adapted_material_clause (self : License) : bool :=
  bool_decide (license_code self ∈ ["by"; "by-nc"]).

(** ** [License.level_of_freedom] *)

Section Freedom.

(** [licenses.FREEDOM_LEVEL_MAX], [FREEDOM_LEVEL_MID], [FREEDOM_LEVEL_MIN]:
    the package's [__init__] is outside these sources. *)
Variables FREEDOM_LEVEL_MAX FREEDOM_LEVEL_MID FREEDOM_LEVEL_MIN : Z.

Definition level_of_freedom (self : License) : Z :=
  if bool_decide (license_code self ∈ ["devnations"; "sampling"])
  then FREEDOM_LEVEL_MIN
  else if bool_decide (find (license_code self) "sampling" > -1)%Z
          || bool_decide (find (license_code self) "nc" > -1)%Z
          || bool_decide (find (license_code self) "nd" > -1)%Z
  then FREEDOM_LEVEL_MID
  else FREEDOM_LEVEL_MAX.

End Freedom.

(** ** [LegalCode.definitions] and [LegalCode.downstreams] *)

(** An item of [definitions]: the dictionary with the keys [id], [msgid]
    and [translation]. *)
Record Definition_item := mkDefinition_item {
  definition_id : string;
  definition_msgid : string;
  definition_translation : string;
}.

(** An item of [downstreams]: the dictionary with the keys [id],
    [msgid_name], [msgid_text], [name_translation] and
    [text_translation]. *)
Record Downstream_item := mkDownstream_item {
  downstream_id : string;
  downstream_msgid_name : string;
  downstream_msgid_text : string;
  downstream_name_translation : string;
  downstream_text_translation : string;
}.

(** The list [expected_definitions] before the optional ones. *)
Definition base_definitions : list string :=
  ["adapted_material"; "copyright_and_similar_rights";
   "effective_technological_measures"; "exceptions_and_limitations";
   "licensed_material"; "licensed_rights"; "licensor"; "share";
   "sui_generis_database_rights"; "you"].

(** The local function [insert_after] of [definitions], on the list it
    updates. *)
Definition insert_after (expected_definitions : list string)
    (after_this what_to_insert : string) : ListError + list string :=
  match list_index expected_definitions after_this with
  | inl e => inl e
  | inr i => inr (list_insert_at (i + 1) what_to_insert expected_definitions)
  end.

(** A sequence of [insert_after] calls: [(after_this, what_to_insert)] in
    order, the first error ends it. *)
Fixpoint insert_all (expected_definitions : list string)
    (calls : list (string * string)) : ListError + list string :=
  match calls with
  | [] => inr expected_definitions
  | (after_this, what_to_insert) :: calls' =>
      match insert_after expected_definitions after_this what_to_insert with
      | inl e => inl e
      | inr expected_definitions' => insert_all expected_definitions' calls'
      end
  end.

(** The calls of [insert_after] that the branch of a license code makes. *)
Definition optional_definitions (license_code : string)
    : list (string * string) :=
  if decide (license_code = "by-sa") then
    [("adapted_material", "adapters_license");
     ("adapters_license", "by_sa_compatible_license");
     ("exceptions_and_limitations", "license_elements_sa")]
  else if decide (license_code = "by") then
    [("adapted_material", "adapters_license")]
  else if decide (license_code = "by-nc") then
    [("adapted_material", "adapters_license");
     ("licensor", "noncommercial")]
  else if decide (license_code = "by-nd") then
    []
  else if decide (license_code = "by-nc-nd") then
    [("licensor", "noncommercial")]
  else if decide (license_code = "by-nc-sa") then
    [("adapted_material", "adapters_license");
     ("exceptions_and_limitations", "license_elements_nc_sa");
     ("adapters_license", "by_nc_sa_compatible_license");
     ("licensor", "noncommercial")]
  else [].

(** [expected_definitions] when the branches are through. *)
Definition expected_definitions (self : LegalCode)
    : ListError + list string :=
  insert_all base_definitions
    (optional_definitions (license_code (license self))).

(** The comprehension over [enumerate(items)], from the index [i]: for each
    item the letter [LETTERS[i]] and what [make] builds of both. *)
Fixpoint enumerate_items {A} (LETTERS : string)
    (make : ascii → string → A) (i : nat) (items : list string)
    : ListError + list A :=
  match items with
  | [] => inr []
  | item :: items' =>
      match letter LETTERS i with
      | inl e => inl e
      | inr c =>
          match enumerate_items LETTERS make (S i) items' with
          | inl e => inl e
          | inr rest => inr (make c item :: rest)
          end
      end
  end.

Section Templates.

Variable w : World.

(** [translation.translate] of the translation object of a file and
    language, which [i18n.translation.get_translation_object] returns:
    outside these sources. *)
Variable translate : string → string → string → string.

(** [self.get_translation_object().translate]. *)
Definition translate_of (self : LegalCode) : string → string :=
  translate (translation_filename w self) (language_code self).

(** [LegalCode.definitions]. *)
Definition definitions (self : LegalCode)
    : ListError + list Definition_item :=
  match expected_definitions self with
  | inl e => inl e
  | inr expected_definitions =>
      match
        enumerate_items ascii_lowercase
          (λ c item, ("s1" +:+ String c "", "s1_definitions_" +:+ item))
          0 expected_definitions
      with
      | inl e => inl e
      | inr result =>
          inr ((λ item,
                  mkDefinition_item item.1 item.2 (translate_of self item.2))
               <$> result)
      end
  end.

(** [LegalCode.downstreams]. *)
Definition downstreams (self : LegalCode)
    : ListError + list Downstream_item :=
  let expected_downstreams := ["offer"; "no_restrictions"] in
  let expected_downstreams :=
    if bool_decide (license_code (license self) ∈ ["by-sa"; "by-nc-sa"])
    then list_insert_at 1 "adapted_material" expected_downstreams
    else expected_downstreams in
  match
    enumerate_items ascii_uppercase
      (λ c item,
         ("s2a5" +:+ String c "" +:+ "_" +:+ item,
          "s2a5_license_grant_downstream_" +:+ item +:+ "_name",
          "s2a5_license_grant_downstream_" +:+ item +:+ "_text"))
      0 expected_downstreams
  with
  | inl e => inl e
  | inr result =>
      inr ((λ item,
              mkDownstream_item item.1.1 item.1.2 item.2
                (translate_of self item.1.2) (translate_of self item.2))
           <$> result)
  end.

End Templates.

(** ** [License.get_legalcode_for_language_code] *)

(** What the method raises: an exception of the query, or the [TypeError]
    of [in] on [None]. *)
Inductive Raised :=
  | Query (e : Exn)
  | TypeError.

Section Legalcodes.

(** [translation.get_language()], which is [None] when translations are
    deactivated; and the query [self.legal_codes.get(language_code=...)],
    on a string or [None]. *)
Variable get_language : option string.
Variable legal_codes_get : License → option string → Exn + LegalCode.

(** The truth value of a string or [None]. *)
Definition truthy_or_none (s : option string) : bool :=
  match s with
  | Some s => truthy s
  | None => false
  end.

Definition get_legalcode_for_language_code (self : License)
    (language_code : option string) : Raised + LegalCode :=
  let language_code :=
    if truthy_or_none language_code then language_code else get_language in
  match legal_codes_get self language_code with
  | inr legalcode => inr legalcode
  | inl DoesNotExist =>
      match language_code with
      | None => inl TypeError
      | Some code =>
          if contains_char "-" code then
            let lang := split_first "-" code in
            match legal_codes_get self (Some lang) with
            | inr legalcode => inr legalcode
            | inl e => inl (Query e)
            end
          else inl (Query DoesNotExist)
      end
  | inl e => inl (Query e)
  end.

End Legalcodes.

(** ** Classes of characters *)

Definition is_digit (c : ascii) : bool :=
  (48 <=? nat_of_ascii c)%nat && (nat_of_ascii c <=? 57)%nat.

(** A letter, a digit, a hyphen, an underscore or a period: what license
    codes, versions, jurisdiction codes and language codes are made of. *)
Definition is_code_char (c : ascii) : bool :=
  is_upper c || is_lower c || is_digit c ||
  Ascii.eqb c "-" || Ascii.eqb c "_" || Ascii.eqb c ".".

(** A lowercase letter, a digit or a hyphen: what a DNS label is made
    of. *)
Definition is_dns_char (c : ascii) : bool :=
  is_lower c || is_digit c || Ascii.eqb c "-".

(** A letter, a digit, an underscore or a hyphen: what a resource slug may
    be made of. *)
Definition is_slug_char (c : ascii) : bool :=
  is_upper c || is_lower c || is_digit c ||
  Ascii.eqb c "_" || Ascii.eqb c "-".

(** All characters of a string are of a class. *)
Definition all_chars (P : ascii → bool) (s : string) : Prop :=
  ∀ c, c ∈ list_ascii_of_string s → P c = true.




(** The function that [branch_name] applies to the joined parts. *)
Definition branch_normal (s : string) : string :=
  lower (replace "." "" (replace "_" "-" s)).

(** ** More of the example world *)

(** A world without the English legal code. *)
Definition example_world_no_english : World := {|
  TRANSLATION_REPOSITORY_DIRECTORY := "/cc-licenses-data";
  os_path_join a b c d := a +:+ "/" +:+ b +:+ "/" +:+ c +:+ "/" +:+ d;
  translation_pofile filename lang := 4;
  objects_get lic lang := inl DoesNotExist;
|}%positive.

(** An English catalog with an entry that the French one does not use. *)
Definition example_D_more : list POEntry :=
  [mkPOEntry "s1a" "Adapted Material"; mkPOEntry "s1b" "Copyright";
   mkPOEntry "s1z" "You"].

Definition example_store_more : Heap :=
  {[ 1 := ObjFile [2; 3; 7];
     2 := ObjEntry (mkPOEntry "s1a" "Adapted Material");
     3 := ObjEntry (mkPOEntry "s1b" "Copyright");
     7 := ObjEntry (mkPOEntry "s1z" "You");
     4 := ObjFile [5; 6];
     5 := ObjEntry (mkPOEntry "s1a" "Matériel Adapté");
     6 := ObjEntry (mkPOEntry "s1b" "Droit d'auteur") ]}%positive.

(** A translation object that gives every message key as it is. *)
Definition example_translate (filename lang key : string) : string := key.

(** The BY-NC 4.0 license in French. *)
Definition french_by_nc : LegalCode :=
  mkLegalCode (mkLicense "by-nc" "4.0" "") "fr".

(** The legal codes of a license: English only. *)
Definition example_legal_codes_get (self : License)
    (language_code : option string) : Exn + LegalCode :=
  match language_code with
  | Some lang =>
      if decide (lang = "en") then inr (mkLegalCode self "en")
      else inl DoesNotExist
  | None => inl DoesNotExist
  end.

(** The names and the items of [definitions] for BY-NC 4.0 in French. *)
Definition base_definitions_by_nc : list string :=
  Eval vm_compute in
    match expected_definitions french_by_nc with
    | inr names => names
    | inl _ => []
    end.

Definition definitions_by_nc : list Definition_item :=
  Eval vm_compute in
    match definitions example_world example_translate french_by_nc with
    | inr items => items
    | inl _ => []
    end.

(** * Proofs *)

(** ** Running a computation step by step *)

Lemma bind_val {A B} (m : M A) (f : A → M B) h a h' :
  m h = Val a h' → (m ≫= f) h = f a h'.
Proof. intros Hm. unfold mbind, M_bind. by rewrite Hm. Qed.

Lemma bind_exc {A B} (m : M A) (f : A → M B) h e h' :
  m h = Exc e h' → (m ≫= f) h = Exc e h'.
Proof. intros Hm. unfold mbind, M_bind. by rewrite Hm. Qed.

Lemma get_entry_val h l e :
  h !! l = Some (ObjEntry e) → get_entry l h = Val e h.
Proof. intros Hl. unfold get_entry. by rewrite Hl. Qed.

Lemma get_items_val h p ls :
  h !! p = Some (ObjFile ls) → get_items p h = Val ls h.
Proof. intros Hp. unfold get_items. by rewrite Hp. Qed.

Lemma alloc_val o h :
  ∃ l, alloc o h = Val l (<[l := o]> h) ∧ h !! l = None.
Proof.
  exists (fresh (dom h)). split; [done|].
  apply not_elem_of_dom, is_fresh.
Qed.

Lemma append_item_val h p ls l :
  h !! p = Some (ObjFile ls) →
  append_item p l h = Val () (<[p := ObjFile (ls ++ [l])]> h).
Proof. intros Hp. unfold append_item. by rewrite Hp. Qed.

(** ** [deepcopy] *)

(** A relation that sends distinct items to distinct copies keeps a list
    free of repetitions. *)
Lemma Forall2_NoDup {A B} (R : A → B → Prop) (xs : list A) (ys : list B) :
  (∀ x1 x2 y, R x1 y → R x2 y → x1 = x2) →
  Forall2 R xs ys → NoDup xs → NoDup ys.
Proof.
  intros Hinj HR. induction HR as [|x y xs ys Hxy HR IH]; intros Hnd.
  - constructor.
  - apply NoDup_cons in Hnd as [Hx Hnd]. apply NoDup_cons. split; [|auto].
    intros Hy. apply list_elem_of_lookup in Hy as [i Hi].
    destruct (Forall2_lookup_r _ _ _ _ _ HR Hi) as (x' & Hx' & Hx'y).
    apply Hx. rewrite (Hinj x x' y Hxy Hx'y).
    apply list_elem_of_lookup. eauto.
Qed.

Section Deepcopy.

(** The store [h0] before the copy, the file [p] copied and the new file
    [p']. *)
Variables (h0 : Heap) (p p' : loc).
Hypothesis p'_new : h0 !! p' = None.

Local Abbreviation copying := (copying h0 p p').

Lemma deepcopy_entry_spec h memo acc l e :
  copying h memo acc → h0 !! l = Some (ObjEntry e) → l ≠ p →
  ∃ l' h' memo',
    deepcopy_entry memo l h = Val (l', memo') h' ∧
    copying h' memo' acc ∧ memo ⊆ memo' ∧ memo' !! l = Some l'.
Proof.
  intros Hinv Hl Hlp. unfold deepcopy_entry.
  destruct (memo !! l) as [l'|] eqn:Hmemo.
  - exists l', h, memo. split_and!; auto.
  - destruct (alloc_val (ObjEntry e) h) as (l' & Halloc & Hnew).
    rewrite (bind_val _ _ h e h);
      [|apply get_entry_val; eapply lookup_weaken; [done|apply Hinv]].
    rewrite (bind_val _ _ h l' _ Halloc).
    assert (Hl'0 : h0 !! l' = None).
    { destruct (h0 !! l') eqn:E; [|done].
      eapply lookup_weaken in E; [|apply Hinv]. congruence. }
    assert (Hl'p' : l' ≠ p').
    { intros ->. rewrite (copying_file Hinv) in Hnew. done. }
    assert (Hold : ∀ q q', memo !! q = Some q' → q' ≠ l').
    { intros q q' Hq ->.
      destruct (copying_memo Hinv _ _ Hq) as [[_ ->]|(_ & _ & ? & _ & ?)];
        congruence. }
    exists l', (<[l' := ObjEntry e]> h), (<[l := l']> memo).
    split_and!.
    + done.
    + split.
      * etrans; [apply Hinv|]. by apply insert_subseteq.
      * rewrite lookup_insert_ne by done. apply Hinv.
      * intros q q' Hq. destruct (decide (q = l)) as [->|Hne].
        -- rewrite lookup_insert_eq in Hq. injection Hq as <-. right.
           split_and!; [done..|].
           exists e. by rewrite lookup_insert_eq.
        -- rewrite lookup_insert_ne in Hq by done.
           destruct (copying_memo Hinv _ _ Hq)
             as [?|(? & ? & e' & ? & Hq')]; [by left|right].
           split_and!; [done..|]. exists e'. split; [done|].
           rewrite lookup_insert_ne; [done|]. intros <-. by eapply Hold.
      * intros q1 q2 q'. rewrite !lookup_insert.
        repeat case_decide; subst; try done.
        -- intros [= <-] Hq2. by destruct (Hold _ _ Hq2).
        -- intros Hq1 [= <-]. by destruct (Hold _ _ Hq1).
        -- apply Hinv.
    + by apply insert_subseteq.
    + by rewrite lookup_insert_eq.
Qed.

Lemma copying_append h memo acc l' :
  copying h memo acc → l' ≠ p' →
  copying (<[p' := ObjFile (acc ++ [l'])]> h) memo (acc ++ [l']).
Proof.
  intros Hinv Hne. split.
  - apply insert_subseteq_r; [done|apply Hinv].
  - by rewrite lookup_insert_eq.
  - intros q q' Hq.
    destruct (copying_memo Hinv _ _ Hq) as [?|(? & ? & e & ? & ?)];
      [by left|right].
    split_and!; [done..|]. exists e. split; [done|].
    by rewrite lookup_insert_ne.
  - apply Hinv.
Qed.

Lemma deepcopy_items_spec ls : ∀ C h memo acc,
  copying h memo acc → is_entries h0 ls C → p ∉ ls →
  ∃ ls' h' memo',
    deepcopy_items memo p' ls h = Val () h' ∧
    copying h' memo' (acc ++ ls') ∧ memo ⊆ memo' ∧
    Forall2 (λ l l', memo' !! l = Some l') ls ls'.
Proof.
  induction ls as [|l ls IH]; intros C h memo acc Hinv HC Hp.
  - exists [], h, memo. rewrite app_nil_r. split_and!; auto.
  - apply Forall2_cons_inv_l in HC as (e & C' & He & HC' & ->).
    apply not_elem_of_cons in Hp as [Hlp Hp].
    destruct (deepcopy_entry_spec h memo acc l e Hinv He)
      as (l' & h1 & memo1 & Hrun & Hinv1 & Hsub & Hl'); [done|].
    assert (Hl'p' : l' ≠ p').
    { destruct (copying_memo Hinv1 _ _ Hl') as [[? _]|(? & _)]; done. }
    destruct (IH C' _ memo1 (acc ++ [l'])
                (copying_append _ _ _ l' Hinv1 Hl'p') HC' Hp)
      as (ls' & h2 & memo2 & Hrest & Hinv2 & Hsub2 & Hall).
    exists (l' :: ls'), h2, memo2. split_and!.
    + cbn [deepcopy_items].
      rewrite (bind_val _ _ _ _ _ Hrun). cbn [fst snd].
      rewrite (bind_val _ _ _ () _
                 (append_item_val _ _ _ l' (copying_file Hinv1))).
      done.
    + by rewrite <-(assoc_L (++)) in Hinv2.
    + by etrans.
    + constructor; [|done]. by eapply lookup_weaken.
Qed.

Lemma copying_items h memo acc items : ∀ ls ls' C,
  copying h memo acc → h0 !! p = Some (ObjFile items) →
  Forall2 (λ l l', memo !! l = Some l') ls ls' → is_entries h0 ls C →
  is_entries h ls' C ∧ Forall (λ l', h0 !! l' = None) ls'.
Proof.
  intros ls ls' C Hinv Hp Hall. revert C.
  induction Hall as [|l l' ls ls' Hl Hall IH]; intros C HC.
  - apply Forall2_nil_inv_l in HC as ->. split; constructor.
  - apply Forall2_cons_inv_l in HC as (e & C' & He & HC' & ->).
    destruct (IH C' HC') as [IH1 IH2].
    destruct (copying_memo Hinv _ _ Hl)
      as [[-> _]|(_ & Hnew & e' & He' & Hl')]; [congruence|].
    assert (e' = e) as -> by congruence.
    split; by constructor.
Qed.

(** What [deepcopy p] leaves: no object of [h0] has changed, and the new
    file [p'] has new, distinct items that hold the catalog of [p]. *)
Lemma deepcopy_items_result h ls C :
  h0 !! p = Some (ObjFile ls) → NoDup ls → is_entries h0 ls C →
  copying h {[p := p']} [] →
  ∃ ls' h',
    deepcopy_items {[p := p']} p' ls h = Val () h' ∧
    h0 ⊆ h' ∧ pofile_at h' p' ls' C ∧ Forall (λ l', h0 !! l' = None) ls'.
Proof.
  intros Hp Hnd HC Hinv.
  assert (Hpls : p ∉ ls).
  { intros Hin. apply list_elem_of_lookup in Hin as [i Hi].
    destruct (Forall2_lookup_l _ _ _ _ _ HC Hi) as (e & _ & He).
    congruence. }
  destruct (deepcopy_items_spec ls C h _ [] Hinv HC Hpls)
    as (ls' & h' & memo' & Hrun & Hinv' & _ & Hall).
  rewrite app_nil_l in Hinv'.
  destruct (copying_items _ _ _ _ _ _ _ Hinv' Hp Hall HC) as [Hent Hnew].
  exists ls', h'. split_and!; [done|apply Hinv'| |done].
  split_and!; [apply Hinv'| |done].
  eapply Forall2_NoDup; [|exact Hall|exact Hnd].
  intros l1 l2 l'. apply Hinv'.
Qed.

End Deepcopy.

Lemma deepcopy_spec h p ls C :
  pofile_at h p ls C →
  ∃ p' ls' h',
    deepcopy p h = Val p' h' ∧
    h ⊆ h' ∧ h !! p' = None ∧ pofile_at h' p' ls' C ∧
    Forall (λ l', h !! l' = None) ls'.
Proof.
  intros (Hp & Hnd & HC). unfold deepcopy.
  rewrite (bind_val _ _ _ _ _ (get_items_val _ _ _ Hp)).
  destruct (alloc_val (ObjFile []) h) as (p' & Halloc & Hnew).
  rewrite (bind_val _ _ _ _ _ Halloc).
  destruct (deepcopy_items_result h p p' Hnew (<[p' := ObjFile []]> h) ls C)
    as (ls' & h' & Hrun & Hsub & Hfile & Hfresh); [done..| |].
  { split.
    - by apply insert_subseteq.
    - by rewrite lookup_insert_eq.
    - intros l l' [<- <-]%lookup_singleton_Some. by left.
    - intros l1 l2 l' [<- _]%lookup_singleton_Some
        [<- _]%lookup_singleton_Some. done. }
  exists p', ls', h'.
  by rewrite (bind_val _ _ _ _ _ Hrun).
Qed.

(** ** The loops *)

Lemma set_msgid_val h l e s :
  h !! l = Some (ObjEntry e) →
  set_msgid l s h = Val () (<[l := ObjEntry (mkPOEntry s (msgstr e))]> h).
Proof. intros Hl. unfold set_msgid. by rewrite Hl. Qed.

Lemma set_msgstr_val h l e s :
  h !! l = Some (ObjEntry e) →
  set_msgstr l s h = Val () (<[l := ObjEntry (mkPOEntry (msgid e) s)]> h).
Proof. intros Hl. unfold set_msgstr. by rewrite Hl. Qed.

(** An assignment to an entry outside [ls] keeps what [ls] holds. *)
Lemma is_entries_insert h ls C l o :
  l ∉ ls → is_entries h ls C → is_entries (<[l := o]> h) ls C.
Proof.
  intros Hl HC. revert Hl.
  induction HC as [|l1 e ls C He HC IH]; intros Hl; [constructor|].
  apply not_elem_of_cons in Hl as [Hne Hl].
  constructor; [by rewrite lookup_insert_ne|by apply IH].
Qed.

Lemma is_entries_weaken h h' ls C :
  h ⊆ h' → is_entries h ls C → is_entries h' ls C.
Proof.
  intros Hsub HC. eapply Forall2_impl; [exact HC|]. cbn.
  intros l e Hl. by eapply lookup_weaken.
Qed.

(** The body of the loop of the default-language branch. *)
Lemma english_body_val h entry e :
  h !! entry = Some (ObjEntry e) →
  (s ← get_msgstr entry; set_msgid entry s;; set_msgstr entry "") h
  = Val () (<[entry := ObjEntry (english_as_msgid e)]> h).
Proof.
  intros He. unfold get_msgstr.
  rewrite (bind_val _ _ h (msgstr e) h);
    [|by rewrite (bind_val _ _ _ _ _ (get_entry_val _ _ _ He))].
  rewrite (bind_val _ _ _ _ _ (set_msgid_val _ _ _ _ He)).
  rewrite (set_msgstr_val _ _ (mkPOEntry (msgstr e) (msgstr e)))
    by apply lookup_insert_eq.
  by rewrite insert_insert_eq.
Qed.

Lemma english_loop ls : ∀ C h,
  NoDup ls → is_entries h ls C →
  ∃ h',
    for_each ls (λ entry,
      s ← get_msgstr entry; set_msgid entry s;; set_msgstr entry "") h
    = Val () h' ∧
    is_entries h' ls (english_as_msgid <$> C) ∧
    ∀ l, l ∉ ls → h' !! l = h !! l.
Proof.
  induction ls as [|entry ls IH]; intros C h Hnd HC.
  - apply Forall2_nil_inv_l in HC as ->. exists h. split_and!; [done| |done].
    constructor.
  - apply Forall2_cons_inv_l in HC as (e & C' & He & HC' & ->).
    apply NoDup_cons in Hnd as [Hentry Hnd].
    destruct (IH C' (<[entry := ObjEntry (english_as_msgid e)]> h) Hnd)
      as (h' & Hrun & Hout & Hframe); [by apply is_entries_insert|].
    exists h'. split_and!.
    + cbn [for_each].
      by rewrite (bind_val _ _ _ _ _ (english_body_val _ _ _ He)).
    + rewrite fmap_cons. constructor; [|done].
      rewrite (Hframe entry Hentry). apply lookup_insert_eq.
    + intros l [Hne Hl]%not_elem_of_cons.
      rewrite (Hframe l Hl). by apply lookup_insert_ne.
Qed.

(** The dictionary comprehension reads the entries and leaves the store. *)
Lemma dict_comprehension_val h ls : ∀ D d,
  is_entries h ls D →
  dict_comprehension d ls h
  = Val (foldl (λ d e, <[msgid e := msgstr e]> d) d D) h.
Proof.
  induction ls as [|l ls IH]; intros D d HD.
  - by apply Forall2_nil_inv_l in HD as ->.
  - apply Forall2_cons_inv_l in HD as (e & D' & He & HD' & ->).
    cbn [dict_comprehension foldl].
    rewrite (bind_val _ _ _ _ _ (get_entry_val _ _ _ He)). by apply IH.
Qed.

(** The loop of the other branch: it stops at the first entry whose key has
    no message, and has assigned only to entries of [ls]. *)
Lemma messages_loop (d : gmap string string) ls : ∀ C h,
  NoDup ls → is_entries h ls C →
  ∃ h',
    (∀ l, l ∉ ls → h' !! l = h !! l) ∧
    match with_messages d C with
    | inr out =>
        for_each ls (λ entry,
          key ← get_msgid entry;
          match d !! key with
          | None => raise (MissingDefaultTranslation key)
          | Some english => set_msgid entry english
          end) h = Val () h' ∧
        is_entries h' ls out
    | inl key =>
        for_each ls (λ entry,
          key ← get_msgid entry;
          match d !! key with
          | None => raise (MissingDefaultTranslation key)
          | Some english => set_msgid entry english
          end) h = Exc (MissingDefaultTranslation key) h'
    end.
Proof.
  induction ls as [|entry ls IH]; intros C h Hnd HC.
  - apply Forall2_nil_inv_l in HC as ->. exists h. cbn. split_and!; [done..|].
    constructor.
  - apply Forall2_cons_inv_l in HC as (e & C' & He & HC' & ->).
    apply NoDup_cons in Hnd as [Hentry Hnd].
    assert (Hkey : get_msgid entry h = Val (msgid e) h).
    { unfold get_msgid.
      by rewrite (bind_val _ _ _ _ _ (get_entry_val _ _ _ He)). }
    cbn [with_messages for_each].
    destruct (d !! msgid e) as [english|] eqn:Hd.
    + destruct (IH C' (<[entry := ObjEntry (mkPOEntry english (msgstr e))]> h)
                  Hnd) as (h' & Hframe & Hrest);
        [by apply is_entries_insert|].
      exists h'. split.
      { intros l [Hne Hl]%not_elem_of_cons.
        rewrite (Hframe l Hl). by apply lookup_insert_ne. }
      assert (Hbody :
        (key ← get_msgid entry;
         match d !! key with
         | None => raise (MissingDefaultTranslation key)
         | Some english => set_msgid entry english
         end) h
        = Val () (<[entry := ObjEntry (mkPOEntry english (msgstr e))]> h)).
      { rewrite (bind_val _ _ _ _ _ Hkey), Hd. by apply set_msgid_val. }
      rewrite (bind_val _ _ _ _ _ Hbody).
      destruct (with_messages d C') as [key|out].
      * done.
      * destruct Hrest as [Hrun Hout]. split; [done|].
        constructor; [|done].
        rewrite (Hframe entry Hentry). apply lookup_insert_eq.
    + exists h. split; [done|].
      apply bind_exc. by rewrite (bind_val _ _ _ _ _ Hkey), Hd.
Qed.

(** ** The method on values *)

Lemma catalog_pofile_at h p ls C : pofile_at h p ls C → catalog h p = Some C.
Proof.
  intros (Hp & _ & HC). unfold catalog. rewrite Hp.
  apply mapM_Some. eapply Forall2_impl; [exact HC|].
  intros l e Hl. unfold read_entry. by rewrite Hl.
Qed.

Lemma catalog_is_catalog h p C : is_catalog h p C → catalog h p = Some C.
Proof. intros [ls Hp]. by eapply catalog_pofile_at. Qed.

Lemma pofile_at_weaken h h' p ls C :
  h ⊆ h' → pofile_at h p ls C → pofile_at h' p ls C.
Proof.
  intros Hsub (Hp & Hnd & HC). split_and!; [|done|].
  - by eapply lookup_weaken.
  - by eapply is_entries_weaken.
Qed.

Lemma is_catalog_weaken h h' p C :
  h ⊆ h' → is_catalog h p C → is_catalog h' p C.
Proof. intros Hsub [ls Hp]. exists ls. by eapply pofile_at_weaken. Qed.

(** A store that agrees with [h] outside of [ls], which [h] does not
    have, extends [h]. *)
Lemma frame_subseteq (h h1 h2 : Heap) (ls : list loc) :
  h ⊆ h1 → Forall (λ l, h !! l = None) ls →
  (∀ l, l ∉ ls → h2 !! l = h1 !! l) → h ⊆ h2.
Proof.
  intros Hsub Hnew Hframe. apply map_subseteq_spec. intros l o Hl.
  rewrite Hframe; [by eapply lookup_weaken|].
  intros Hin. rewrite Forall_forall in Hnew. rewrite (Hnew l Hin) in Hl. done.
Qed.

Lemma is_default_true default self :
  language_code self = default → is_default default self = true.
Proof. apply bool_decide_eq_true_2. Qed.

Lemma is_default_false default self :
  language_code self ≠ default → is_default default self = false.
Proof. apply bool_decide_eq_false_2. Qed.

Section Run.

Variable DEFAULT_LANGUAGE_CODE : string.

Local Abbreviation run :=
  (get_pofile_with_english_msgids DEFAULT_LANGUAGE_CODE).
Local Abbreviation inputs := (inputs DEFAULT_LANGUAGE_CODE).
Local Abbreviation is_default := (is_default DEFAULT_LANGUAGE_CODE).

(** The method computes [on_values], in new objects, and changes no object
    of the store it starts in. *)
Lemma run_on_values w self h C D :
  inputs w self h C D →
  ∃ h', h ⊆ h' ∧
    match on_values (is_default self) C D with
    | inr out => ∃ p' ls',
        run w self h = Val p' h' ∧ h !! p' = None ∧
        pofile_at h' p' ls' out ∧ Forall (λ l, h !! l = None) ls'
    | inl e => run w self h = Exc e h'
    end.
Proof.
  intros [[ls HC] HD].
  destruct (deepcopy_spec _ _ _ _ HC)
    as (p' & ls' & h1 & Hcopy & Hsub & Hp' & Hnew & Hfresh).
  unfold get_pofile_with_english_msgids, on_values, get_pofile.
  rewrite (bind_val _ _ h (pofile_of w self) h) by done.
  rewrite (bind_val _ _ _ _ _ Hcopy).
  destruct Hnew as (Hfile & Hnd & Hent).
  case_decide as Hlang.
  - rewrite is_default_true by done.
    rewrite (bind_val _ _ _ _ _ (get_items_val _ _ _ Hfile)).
    destruct (english_loop ls' C h1 Hnd Hent) as (h' & Hrun & Hout & Hframe).
    exists h'. split; [by eapply frame_subseteq|].
    exists p', ls'. rewrite (bind_val _ _ _ _ _ Hrun).
    split_and!; [done..| |done]. split_and!; [|done..].
    rewrite Hframe; [done|].
    intros Hin. apply list_elem_of_lookup in Hin as [i Hi].
    destruct (Forall2_lookup_l _ _ _ _ _ Hent Hi) as (e & _ & He). congruence.
  - rewrite is_default_false by done.
    destruct (HD Hlang) as (en & Hget & lsD & HpD & _ & HentD).
    unfold get_english_pofile. rewrite decide_True by done. rewrite Hget.
    unfold get_pofile.
    rewrite (bind_val _ _ h1 (pofile_of w en) h1) by done.
    rewrite (bind_val _ _ h1 lsD h1);
      [|apply get_items_val; by eapply lookup_weaken].
    rewrite (bind_val _ _ _ _ _
               (dict_comprehension_val h1 lsD D ∅
                  (is_entries_weaken _ _ _ _ Hsub HentD))).
    rewrite (bind_val _ _ _ _ _ (get_items_val _ _ _ Hfile)).
    fold (key_to_message D).
    destruct (messages_loop (key_to_message D) ls' C h1 Hnd Hent)
      as (h' & Hframe & Hloop).
    exists h'. split; [by eapply frame_subseteq|].
    destruct (with_messages (key_to_message D) C) as [key|out].
    + by apply bind_exc.
    + destruct Hloop as [Hrun Hout]. exists p', ls'.
      rewrite (bind_val _ _ _ _ _ Hrun).
      split_and!; [done..| |done]. split_and!; [|done..].
      rewrite Hframe; [done|].
      intros Hin. apply list_elem_of_lookup in Hin as [i Hi].
      destruct (Forall2_lookup_l _ _ _ _ _ Hent Hi) as (e & _ & He).
      congruence.
Qed.

End Run.

(** ** The dictionary and the loop, on values *)

Lemma key_to_message_snoc D e :
  key_to_message (D ++ [e]) = <[msgid e := msgstr e]> (key_to_message D).
Proof. unfold key_to_message. by rewrite foldl_snoc. Qed.

Lemma text_for_snoc D e key :
  text_for (D ++ [e]) key
  = if decide (msgid e = key) then Some (msgstr e) else text_for D key.
Proof.
  unfold text_for. rewrite filter_app. case_decide as Hkey.
  - rewrite (filter_cons_True _ e []) by done.
    by rewrite filter_nil, last_snoc.
  - rewrite (filter_cons_False _ e []) by done.
    by rewrite filter_nil, app_nil_r.
Qed.

(** The dictionary has for a key the text of the last entry with it. *)
Lemma key_to_message_lookup D key :
  key_to_message D !! key = text_for D key.
Proof.
  induction D as [|e D IH] using rev_ind; [done|].
  rewrite key_to_message_snoc, text_for_snoc, lookup_insert.
  by case_decide.
Qed.

Lemma text_for_is_Some D key : is_Some (text_for D key) ↔ key ∈ keys D.
Proof.
  unfold text_for, keys. rewrite fmap_is_Some, last_is_Some.
  rewrite list_elem_of_fmap. split.
  - intros Hne. destruct (filter _ D) as [|e l] eqn:Hf; [done|].
    assert (He : e ∈ filter (λ e, msgid e = key) D)
      by (rewrite Hf; left).
    apply list_elem_of_filter in He as [He ?]. eauto.
  - intros (e & -> & He) Hnil.
    assert (Hin : e ∈ filter (λ e', msgid e' = msgid e) D)
      by (by apply list_elem_of_filter).
    rewrite Hnil in Hin. by apply not_elem_of_nil in Hin.
Qed.

Lemma text_for_last D1 d D2 :
  msgid d ∉ keys D2 →
  text_for (D1 ++ d :: D2) (msgid d) = Some (msgstr d).
Proof.
  intros Hlast. unfold text_for.
  rewrite filter_app, filter_cons_True by done.
  replace (filter (λ e, msgid e = msgid d) D2) with (@nil POEntry).
  - by rewrite last_snoc.
  - symmetry. destruct (filter _ D2) as [|e l] eqn:Hf; [done|].
    assert (He : e ∈ filter (λ e, msgid e = msgid d) D2)
      by (rewrite Hf; left).
    apply list_elem_of_filter in He as [He Hin]. destruct Hlast.
    unfold keys. apply list_elem_of_fmap. eauto.
Qed.

(** The entries the loop leaves, one for one. *)
Lemma with_messages_inr d C : ∀ out,
  with_messages d C = inr out →
  Forall2 (λ old new,
    d !! msgid old = Some (msgid new) ∧ msgstr new = msgstr old) C out.
Proof.
  induction C as [|e C IH]; intros out; cbn.
  - intros [= <-]. constructor.
  - destruct (d !! msgid e) as [english|] eqn:Hd; [|done].
    destruct (with_messages d C) as [key|out']; [done|].
    intros [= <-]. constructor; [done|by apply IH].
Qed.

Lemma with_messages_all d C :
  (∀ key, key ∈ keys C → is_Some (d !! key)) →
  ∃ out, with_messages d C = inr out.
Proof.
  induction C as [|e C IH]; intros Hall; cbn; [by eexists|].
  destruct (Hall (msgid e)) as [english ->]; [left|].
  destruct IH as [out ->]; [|by eexists].
  intros key Hkey. apply Hall. by right.
Qed.

(** The loop stops at the first entry whose key has no message. *)
Lemma with_messages_first d C1 e C2 :
  (∀ key, key ∈ keys C1 → is_Some (d !! key)) → d !! msgid e = None →
  with_messages d (C1 ++ e :: C2) = inl (msgid e).
Proof.
  induction C1 as [|e1 C1 IH]; intros Hall He; cbn.
  - by rewrite He.
  - destruct (Hall (msgid e1)) as [english ->]; [left|].
    rewrite IH; [done| |done].
    intros key Hkey. apply Hall. by right.
Qed.

Lemma with_messages_inl d C key :
  with_messages d C = inl key →
  ∃ C1 e C2, C = C1 ++ e :: C2 ∧ msgid e = key ∧ d !! key = None ∧
    ∀ key', key' ∈ keys C1 → is_Some (d !! key').
Proof.
  revert key. induction C as [|e C IH]; intros key; cbn; [done|].
  destruct (d !! msgid e) as [english|] eqn:Hd.
  - destruct (with_messages d C) as [key'|out'] eqn:HC; [|done].
    intros [= ->]. destruct (IH key eq_refl) as (C1 & e' & C2 & -> & ? & ? & ?).
    exists (e :: C1), e', C2. split_and!; [done..|].
    intros key' [->|Hin]%elem_of_cons; eauto.
  - intros [= <-]. exists [], e, C. split_and!; [done..|].
    intros key' Hin. by apply not_elem_of_nil in Hin.
Qed.

(** The message of the error determines the key. *)
Lemma append_inj_l (s t1 t2 : string) : s +:+ t1 = s +:+ t2 → t1 = t2.
Proof. induction s as [|c s IH]; simpl; [done|]. intros [= ?]. auto. Qed.

Lemma append_length (s t : string) :
  String.length (s +:+ t) = String.length s + String.length t.
Proof. induction s as [|c s IH]; simpl; [done|]. by rewrite IH. Qed.

Lemma append_inj_r (s1 s2 t : string) : s1 +:+ t = s2 +:+ t → s1 = s2.
Proof.
  revert s2. induction s1 as [|c s1 IH]; intros [|c2 s2]; simpl; [done| | |].
  - intros Heq. apply (f_equal String.length) in Heq.
    rewrite !append_length in Heq. simpl in Heq. lia.
  - intros Heq. apply (f_equal String.length) in Heq.
    rewrite !append_length in Heq. simpl in Heq. lia.
  - intros [= -> Heq]. f_equal. by apply IH.
Qed.

Lemma MissingDefaultTranslation_inj key1 key2 :
  MissingDefaultTranslation key1 = MissingDefaultTranslation key2 →
  key1 = key2.
Proof.
  unfold MissingDefaultTranslation, no_message_for. intros [= Heq].
  apply append_inj_l in Heq. by apply append_inj_r in Heq.
Qed.

(** ** Every catalog can be in a store *)

(** Loading a catalog: new entry objects and a new file for them, in a
    store that keeps what it has. *)
Lemma catalog_loads (h : Heap) (C : list POEntry) :
  ∃ h' p, h ⊆ h' ∧ h !! p = None ∧ is_catalog h' p C.
Proof.
  induction C as [|e C IH].
  - destruct (alloc_val (ObjFile []) h) as (p & _ & Hp).
    exists (<[p := ObjFile []]> h), p. split_and!.
    + by apply insert_subseteq.
    + done.
    + exists []. split_and!; [apply lookup_insert_eq|constructor..].
  - destruct IH as (h1 & p1 & Hsub & Hp1 & ls & Hfile & Hnd & Hent).
    destruct (alloc_val (ObjEntry e) h1) as (l & _ & Hl).
    destruct (alloc_val (ObjFile (l :: ls)) (<[l := ObjEntry e]> h1))
      as (p & _ & Hp).
    apply lookup_insert_None in Hp as [Hp Hlp].
    assert (Hlls : l ∉ ls).
    { intros Hin. apply list_elem_of_lookup in Hin as [i Hi].
      destruct (Forall2_lookup_l _ _ _ _ _ Hent Hi) as (e' & _ & He').
      congruence. }
    assert (Hpls : p ∉ ls).
    { intros Hin. apply list_elem_of_lookup in Hin as [i Hi].
      destruct (Forall2_lookup_l _ _ _ _ _ Hent Hi) as (e' & _ & He').
      congruence. }
    exists (<[p := ObjFile (l :: ls)]> (<[l := ObjEntry e]> h1)), p.
    split_and!.
    + etrans; [exact Hsub|]. etrans; [|by apply insert_subseteq;
        apply lookup_insert_None]. by apply insert_subseteq.
    + destruct (h !! p) eqn:E; [|done].
      eapply lookup_weaken in E; [|exact Hsub]. congruence.
    + exists (l :: ls). split_and!.
      * apply lookup_insert_eq.
      * by apply NoDup_cons.
      * constructor.
        -- rewrite lookup_insert_ne by done. apply lookup_insert_eq.
        -- apply is_entries_insert; [done|]. by apply is_entries_insert.
Qed.

(** For every legal code and catalogs [C] and [D] there are a world and a
    store in which a call reads them. *)
Lemma inputs_loads default (self : LegalCode) (C D : list POEntry) :
  ∃ w h, inputs default w self h C D.
Proof.
  destruct (catalog_loads ∅ D) as (h1 & pD & _ & _ & HD).
  destruct (catalog_loads h1 C) as (h2 & pC & Hsub & _ & HC).
  exists {| TRANSLATION_REPOSITORY_DIRECTORY := "";
            os_path_join a b c d := d;
            translation_pofile filename lang :=
              if decide (lang = language_code self) then pC else pD;
            objects_get lic lang := inr (mkLegalCode lic lang) |}, h2.
  split.
  - unfold pofile_of. cbn. by rewrite decide_True.
  - intros Hlang. eexists. split; [reflexivity|].
    unfold pofile_of. cbn. rewrite decide_False by done.
    by eapply is_catalog_weaken.
Qed.

(** * The properties of the specification *)

Section Reconciliation.

Variable DEFAULT_LANGUAGE_CODE : string.

Local Abbreviation run :=
  (get_pofile_with_english_msgids DEFAULT_LANGUAGE_CODE).
Local Abbreviation inputs := (inputs DEFAULT_LANGUAGE_CODE).
Local Abbreviation is_default := (is_default DEFAULT_LANGUAGE_CODE).

(** The run on a legal code of the default language. *)
Lemma run_default w self h C D :
  inputs w self h C D → language_code self = DEFAULT_LANGUAGE_CODE →
  ∃ p' ls' h',
    run w self h = Val p' h' ∧ h ⊆ h' ∧ h !! p' = None ∧
    pofile_at h' p' ls' (english_as_msgid <$> C) ∧
    Forall (λ l, h !! l = None) ls'.
Proof.
  intros Hin Hlang. destruct (run_on_values _ _ _ _ _ _ Hin) as (h' & Hsub & Hrun).
  unfold on_values in Hrun. rewrite is_default_true in Hrun by done.
  destruct Hrun as (p' & ls' & ? & ? & ? & ?). by exists p', ls', h'.
Qed.

(** The run on a legal code of another language. *)
Lemma run_translation w self h C D :
  inputs w self h C D → language_code self ≠ DEFAULT_LANGUAGE_CODE →
  ∃ h', h ⊆ h' ∧
    match with_messages (key_to_message D) C with
    | inr out => ∃ p' ls',
        run w self h = Val p' h' ∧ h !! p' = None ∧
        pofile_at h' p' ls' out ∧ Forall (λ l, h !! l = None) ls'
    | inl key => run w self h = Exc (MissingDefaultTranslation key) h'
    end.
Proof.
  intros Hin Hlang. destruct (run_on_values _ _ _ _ _ _ Hin) as (h' & Hsub & Hrun).
  unfold on_values in Hrun. rewrite is_default_false in Hrun by done.
  exists h'. split; [done|].
  by destruct (with_messages (key_to_message D) C).
Qed.

(** C1. A legal code of the default language: the call returns a catalog
    with, entry for entry, the old text as the key and the empty text. *)
Theorem default_language_identity w self h C :
  is_catalog h (pofile_of w self) C →
  language_code self = DEFAULT_LANGUAGE_CODE →
  ∃ p' h' out,
    run w self h = Val p' h' ∧ is_catalog h' p' out ∧
    Forall2 (λ old new, msgid new = msgstr old ∧ msgstr new = "") C out.
Proof.
  intros HC Hlang.
  destruct (run_default w self h C [] (conj HC (λ H, False_ind _ (H Hlang))) Hlang)
    as (p' & ls' & h' & Hrun & _ & _ & Hout & _).
  exists p', h', (english_as_msgid <$> C). split_and!; [done|by exists ls'|].
  apply Forall2_fmap_r, Forall_Forall2_diag, Forall_forall. done.
Qed.

(** C2. Another language, every key of [C] a key of [D]: the call returns
    a catalog with, entry for entry, the text [D] has for the old key as
    the key, and the old text. *)
Theorem substitution_correctness w self h C D :
  inputs w self h C D →
  language_code self ≠ DEFAULT_LANGUAGE_CODE →
  (∀ key, key ∈ keys C → key ∈ keys D) →
  ∃ p' h' out,
    run w self h = Val p' h' ∧ is_catalog h' p' out ∧
    Forall2 (λ old new,
      text_for D (msgid old) = Some (msgid new) ∧ msgstr new = msgstr old)
      C out.
Proof.
  intros Hin Hlang Hkeys.
  destruct (run_translation _ _ _ _ _ Hin Hlang) as (h' & _ & Hrun).
  destruct (with_messages_all (key_to_message D) C) as [out Hout].
  { intros key Hkey. rewrite key_to_message_lookup.
    by apply text_for_is_Some, Hkeys. }
  rewrite Hout in Hrun. destruct Hrun as (p' & ls' & Hrun & _ & Hfile & _).
  exists p', h', out. split_and!; [done|by exists ls'|].
  eapply Forall2_impl; [by apply with_messages_inr|].
  intros old new [Hd ?]. by rewrite <-key_to_message_lookup.
Qed.

(** C3. Another language, some key of [C] not a key of [D]: the call
    raises the error, for a key of [C] that [D] does not have; the error
    names no other key. *)
Theorem missing_key_failure w self h C D :
  inputs w self h C D →
  language_code self ≠ DEFAULT_LANGUAGE_CODE →
  (∃ key, key ∈ keys C ∧ key ∉ keys D) →
  ∃ key h',
    run w self h = Exc (MissingDefaultTranslation key) h' ∧
    key ∈ keys C ∧ key ∉ keys D ∧
    ∀ key', MissingDefaultTranslation key' = MissingDefaultTranslation key →
            key' = key.
Proof.
  intros Hin Hlang (key0 & Hkey0 & Hmiss).
  destruct (run_translation _ _ _ _ _ Hin Hlang) as (h' & _ & Hrun).
  destruct (with_messages (key_to_message D) C) as [key|out] eqn:Hout.
  - apply with_messages_inl in Hout as (C1 & e & C2 & -> & <- & Hnone & _).
    exists (msgid e), h'. split_and!.
    + done.
    + unfold keys. rewrite fmap_app, fmap_cons.
      apply elem_of_app. right. left.
    + rewrite <-text_for_is_Some, <-key_to_message_lookup, Hnone.
      by intros [? ?].
    + intros key'. apply MissingDefaultTranslation_inj.
  - apply with_messages_inr in Hout.
    apply list_elem_of_fmap in Hkey0 as (old & -> & Hold).
    apply list_elem_of_lookup in Hold as [i Hi].
    destruct (Forall2_lookup_l _ _ _ _ _ Hout Hi) as (new & _ & Hd & _).
    destruct Hmiss. apply text_for_is_Some.
    rewrite <-key_to_message_lookup. eauto.
Qed.

(** C4. Another language: the call raises the error at the first entry, in
    the order of [C], whose key [D] does not have, and every object of the
    store it started in is as it was; and a call returns a whole catalog,
    an entry for every entry of [C], or raises and returns none. *)
Theorem fails_fast_without_partial_output w self h C D :
  inputs w self h C D →
  language_code self ≠ DEFAULT_LANGUAGE_CODE →
  (∀ C1 e C2,
     C = C1 ++ e :: C2 →
     (∀ key, key ∈ keys C1 → key ∈ keys D) → msgid e ∉ keys D →
     ∃ h', run w self h = Exc (MissingDefaultTranslation (msgid e)) h' ∧
           ∀ l o, h !! l = Some o → h' !! l = Some o) ∧
  ((∃ p' h' out,
      run w self h = Val p' h' ∧ is_catalog h' p' out ∧
      length out = length C) ∨
   (∃ key h', run w self h = Exc (MissingDefaultTranslation key) h')).
Proof.
  intros Hin Hlang.
  destruct (run_translation _ _ _ _ _ Hin Hlang) as (h' & Hsub & Hrun).
  split.
  - intros C1 e C2 -> Hkeys Hmiss.
    rewrite with_messages_first in Hrun.
    + exists h'. split; [done|]. intros l o Hl. by eapply lookup_weaken.
    + intros key Hkey. rewrite key_to_message_lookup.
      by apply text_for_is_Some, Hkeys.
    + rewrite key_to_message_lookup. apply eq_None_not_Some.
      by rewrite text_for_is_Some.
  - destruct (with_messages (key_to_message D) C) as [key|out] eqn:Hout.
    + right. by exists key, h'.
    + left. destruct Hrun as (p' & ls' & Hrun & _ & Hfile & _).
      exists p', h', out. split_and!; [done|by exists ls'|].
      symmetry. eapply Forall2_length, with_messages_inr, Hout.
Qed.

(** C5. A call changes no object of the store it starts in, so that both
    catalogs it reads hold what they held; the file it returns and the
    items of that file are new objects, none of them an object of that
    store. *)
Theorem deep_copy_isolation w self h C D :
  inputs w self h C D →
  ∃ h',
    (∀ l o, h !! l = Some o → h' !! l = Some o) ∧
    inputs w self h' C D ∧
    ((∃ p' ls' out,
        run w self h = Val p' h' ∧ pofile_at h' p' ls' out ∧
        h !! p' = None ∧ Forall (λ l, h !! l = None) ls') ∨
     (∃ e, run w self h = Exc e h')).
Proof.
  intros Hin.
  destruct (run_on_values _ _ _ _ _ _ Hin) as (h' & Hsub & Hrun).
  exists h'. split_and!.
  - intros l o Hl. by eapply lookup_weaken.
  - destruct Hin as [HC HD]. split; [by eapply is_catalog_weaken|].
    intros Hlang. destruct (HD Hlang) as (en & Hget & HenD).
    exists en. split; [done|]. by eapply is_catalog_weaken.
  - destruct (on_values (is_default self) C D) as [e|out].
    + right. by exists e.
    + left. destruct Hrun as (p' & ls' & ? & ? & ? & ?).
      by exists p', ls', out.
Qed.

(** C6. A call that returns: the catalog returned has as many entries as
    [C], and its entry at a position comes from the entry of [C] at that
    position, by the rule of the branch taken. *)
Theorem order_preservation w self h C D p' h' :
  inputs w self h C D →
  run w self h = Val p' h' →
  ∃ out,
    is_catalog h' p' out ∧ length out = length C ∧
    ∀ i old, C !! i = Some old →
      ∃ new, out !! i = Some new ∧
        (language_code self = DEFAULT_LANGUAGE_CODE →
           msgid new = msgstr old ∧ msgstr new = "") ∧
        (language_code self ≠ DEFAULT_LANGUAGE_CODE →
           text_for D (msgid old) = Some (msgid new) ∧
           msgstr new = msgstr old).
Proof.
  intros Hin Hval.
  destruct (run_on_values _ _ _ _ _ _ Hin) as (h'' & _ & Hrun).
  unfold on_values in Hrun.
  destruct (decide (language_code self = DEFAULT_LANGUAGE_CODE)) as [Hlang|Hlang].
  - rewrite is_default_true in Hrun by done.
    destruct Hrun as (p'' & ls' & Hrun & _ & Hfile & _).
    rewrite Hval in Hrun. injection Hrun as <- <-.
    exists (english_as_msgid <$> C). split_and!.
    + by exists ls'.
    + apply length_fmap.
    + intros i old Hi. exists (english_as_msgid old).
      rewrite list_lookup_fmap, Hi. done.
  - rewrite is_default_false in Hrun by done.
    destruct (with_messages (key_to_message D) C) as [key|out] eqn:Hout.
    { congruence. }
    destruct Hrun as (p'' & ls' & Hrun & _ & Hfile & _).
    rewrite Hval in Hrun. injection Hrun as <- <-.
    apply with_messages_inr in Hout.
    exists out. split_and!.
    + by exists ls'.
    + symmetry. by eapply Forall2_length.
    + intros i old Hi.
      destruct (Forall2_lookup_l _ _ _ _ _ Hout Hi) as (new & Hnew & Hd & ?).
      exists new. split_and!; [done..|].
      intros _. by rewrite <-key_to_message_lookup.
Qed.

(** What a caller observes of a call is [on_values] of the catalogs. *)
Lemma outcome_on_values w self h C D :
  inputs w self h C D →
  outcome (run w self h) = Some (on_values (is_default self) C D).
Proof.
  intros Hin.
  destruct (run_on_values _ _ _ _ _ _ Hin) as (h' & _ & Hrun).
  destruct (on_values (is_default self) C D) as [e|out].
  - by rewrite Hrun.
  - destruct Hrun as (p' & ls' & -> & _ & Hfile & _). cbn.
    by rewrite (catalog_pofile_at _ _ _ _ Hfile).
Qed.

(** C7. Two calls that read equal catalogs, both for the default language
    or both for another, in whatever stores and at whatever identities,
    have the same outcome: equal catalogs returned, or the same error. *)
Theorem deterministic w1 w2 self1 self2 h1 h2 C D :
  inputs w1 self1 h1 C D →
  inputs w2 self2 h2 C D →
  is_default self1 = is_default self2 →
  outcome (run w1 self1 h1) = outcome (run w2 self2 h2) ∧
  is_Some (outcome (run w1 self1 h1)).
Proof.
  intros Hin1 Hin2 Hflag.
  rewrite (outcome_on_values _ _ _ _ _ Hin1).
  rewrite (outcome_on_values _ _ _ _ _ Hin2).
  by rewrite Hflag.
Qed.

(** C8. The example of the specification: with [example_D] as the English
    catalog, the call on [example_C] returns the two entries with the
    English texts as keys; and a call on a catalog with the key [s1c],
    the only one [example_D] lacks, raises the error for [s1c]. *)
Theorem specification_example w self h C :
  inputs w self h C example_D →
  language_code self ≠ DEFAULT_LANGUAGE_CODE →
  (C = example_C →
   ∃ p' h',
     run w self h = Val p' h' ∧
     is_catalog h' p'
       [mkPOEntry "Adapted Material" "Matériel Adapté";
        mkPOEntry "Copyright" "Droit d'auteur"]) ∧
  ("s1c" ∈ keys C →
   (∀ key, key ∈ keys C → key = "s1a" ∨ key = "s1b" ∨ key = "s1c") →
   ∃ h', run w self h = Exc (MissingDefaultTranslation "s1c") h').
Proof.
  intros Hin Hlang.
  destruct (run_translation _ _ _ _ _ Hin Hlang) as (h' & _ & Hrun).
  split.
  - intros ->. destruct Hrun as (p' & ls' & Hrun & _ & Hfile & _).
    exists p', h'. split; [done|]. by exists ls'.
  - intros Hs1c Honly.
    destruct (with_messages (key_to_message example_D) C)
      as [key|out] eqn:Hout.
    + apply with_messages_inl in Hout as (C1 & e & C2 & -> & <- & Hnone & _).
      destruct (Honly (msgid e)) as [Hk|[Hk|Hk]].
      * unfold keys. rewrite fmap_app, fmap_cons.
        apply elem_of_app. right. left.
      * by rewrite Hk in Hnone.
      * by rewrite Hk in Hnone.
      * exists h'. by rewrite <-Hk.
    + apply with_messages_inr in Hout.
      apply list_elem_of_fmap in Hs1c as (old & Hkey & Hold).
      apply list_elem_of_lookup in Hold as [i Hi].
      destruct (Forall2_lookup_l _ _ _ _ _ Hout Hi) as (new & _ & Hd & _).
      by rewrite <-Hkey in Hd.
Qed.

(** C9. Several entries of the English catalog with one key: the
    dictionary built from it has for the key the text of the last of
    them, and the call gives every entry of [C] with that key this text as
    its key. *)
Theorem duplicate_keys_last_wins w self h C D D1 d D2 :
  inputs w self h C D →
  language_code self ≠ DEFAULT_LANGUAGE_CODE →
  D = D1 ++ d :: D2 → msgid d ∉ keys D2 →
  (∀ ls, is_entries h ls D →
     ∃ m, dict_comprehension ∅ ls h = Val m h ∧
          m !! msgid d = Some (msgstr d)) ∧
  ((∀ key, key ∈ keys C → key ∈ keys D) →
   ∃ p' h' out,
     run w self h = Val p' h' ∧ is_catalog h' p' out ∧
     Forall2 (λ old new, msgid old = msgid d → msgid new = msgstr d) C out).
Proof.
  intros Hin Hlang -> Hlast. split.
  - intros ls Hls. eexists. split; [by apply dict_comprehension_val|].
    fold (key_to_message (D1 ++ d :: D2)).
    by rewrite key_to_message_lookup, text_for_last.
  - intros Hkeys.
    destruct (run_translation _ _ _ _ _ Hin Hlang) as (h' & _ & Hrun).
    destruct (with_messages_all (key_to_message (D1 ++ d :: D2)) C)
      as [out Hout].
    { intros key Hkey. rewrite key_to_message_lookup.
      by apply text_for_is_Some, Hkeys. }
    rewrite Hout in Hrun. destruct Hrun as (p' & ls' & Hrun & _ & Hfile & _).
    exists p', h', out. split_and!; [done|by exists ls'|].
    eapply Forall2_impl; [by apply with_messages_inr|].
    intros old new [Hd _] Hkey.
    rewrite Hkey, key_to_message_lookup, text_for_last in Hd by done.
    congruence.
Qed.

End Reconciliation.

(** ** [branch_name] *)




Lemma elem_of_lower c' s :
  c' ∈ list_ascii_of_string (lower s) →
  ∃ c, c ∈ list_ascii_of_string s ∧ lower_char c = c'.
Proof.
  induction s as [|c s IH]; simpl.
  - by intros ?%not_elem_of_nil.
  - intros [->|Hin]%elem_of_cons.
    + exists c. split; [left|done].
    + destruct (IH Hin) as (c0 & ? & ?). exists c0. split; [by right|done].
Qed.

Lemma list_ascii_of_string_app s t :
  list_ascii_of_string (s +:+ t)
  = list_ascii_of_string s ++ list_ascii_of_string t.
Proof. induction s as [|c s IH]; simpl; [done|]. by rewrite IH. Qed.

(** The characters [replace] leaves: those of [s] other than [old], and
    those of [new]. *)
Lemma elem_of_replace old new c s :
  c ∈ list_ascii_of_string (replace old new s) →
  (c ∈ list_ascii_of_string s ∧ c ≠ old) ∨ c ∈ list_ascii_of_string new.
Proof.
  induction s as [|c0 s IH]; simpl.
  - by intros ?%not_elem_of_nil.
  - destruct (Ascii.eqb c0 old) eqn:Heq.
    + rewrite list_ascii_of_string_app. intros [Hin|Hin]%elem_of_app.
      * by right.
      * destruct (IH Hin) as [[? ?]|?]; [left|by right].
        split; [by right|done].
    + apply Ascii.eqb_neq in Heq. simpl.
      intros [->|Hin]%elem_of_cons.
      * left. split; [left|done].
      * destruct (IH Hin) as [[? ?]|?]; [left|by right].
        split; [by right|done].
Qed.

Lemma startswith_by s :
  startswith s "by" = true ↔ ∃ rest, s = "by" +:+ rest.
Proof.
  unfold startswith. split.
  - destruct s as [|c1 [|c2 rest]]; cbn [String.prefix]; [done| |].
    + by destruct (ascii_dec "b" c1).
    + destruct (ascii_dec "b" c1) as [<-|]; [|done].
      destruct (ascii_dec "y" c2) as [<-|]; [|done]. by exists rest.
  - intros [rest ->]. by destruct rest.
Qed.

(** * The properties on the example world *)

(** A store given in full holds a catalog given in full. *)
Ltac holds_catalog ls :=
  exists ls; split_and!;
  [ reflexivity
  | apply (bool_decide_unpack _); vm_compute; exact I
  | repeat (constructor; [reflexivity|]); constructor ].

Ltac by_computation := apply (bool_decide_unpack _); vm_compute; exact I.

(** The inputs of a call for French: the items of its file, and those of
    the English one. *)
Ltac holds_inputs lsC lsD :=
  split;
  [ holds_catalog lsC
  | intros _; exists english; split; [reflexivity|holds_catalog lsD] ].

(** C1 on the English legal code of the example. *)
Lemma default_language_identity_example :
  ∃ p' h' out,
    get_pofile_with_english_msgids "en" example_world english example_store
      = Val p' h' ∧
    is_catalog h' p' out ∧
    Forall2 (λ old new, msgid new = msgstr old ∧ msgstr new = "")
      example_D out.
Proof.
  apply (default_language_identity "en" example_world english example_store
           example_D).
  - holds_catalog [2; 3]%positive.
  - reflexivity.
Defined.

(** C2 on the French legal code of the example. *)
Lemma substitution_correctness_example :
  ∃ p' h' out,
    get_pofile_with_english_msgids "en" example_world french example_store
      = Val p' h' ∧
    is_catalog h' p' out ∧
    Forall2 (λ old new,
      text_for example_D (msgid old) = Some (msgid new) ∧
      msgstr new = msgstr old) example_C out.
Proof.
  apply (substitution_correctness "en" example_world french example_store
           example_C example_D).
  - holds_inputs [5; 6]%positive [2; 3]%positive.
  - by_computation.
  - intros key Hkey. exact Hkey.
Defined.

(** C3 on the French catalog with the key [s1c]. *)
Lemma missing_key_failure_example :
  ∃ key h',
    get_pofile_with_english_msgids "en" example_world french
      example_store_s1c = Exc (MissingDefaultTranslation key) h' ∧
    key ∈ keys example_C_s1c ∧ key ∉ keys example_D ∧
    ∀ key', MissingDefaultTranslation key' = MissingDefaultTranslation key →
            key' = key.
Proof.
  apply (missing_key_failure "en" example_world french example_store_s1c
           example_C_s1c example_D).
  - holds_inputs [5; 6; 7]%positive [2; 3]%positive.
  - by_computation.
  - exists "s1c". split; by_computation.
Defined.

(** C4 on the French catalog with the key [s1c]. *)
Lemma fails_fast_without_partial_output_example :
  (∀ C1 e C2,
     example_C_s1c = C1 ++ e :: C2 →
     (∀ key, key ∈ keys C1 → key ∈ keys example_D) →
     msgid e ∉ keys example_D →
     ∃ h', get_pofile_with_english_msgids "en" example_world french
             example_store_s1c
           = Exc (MissingDefaultTranslation (msgid e)) h' ∧
           ∀ l o, example_store_s1c !! l = Some o → h' !! l = Some o) ∧
  ((∃ p' h' out,
      get_pofile_with_english_msgids "en" example_world french
        example_store_s1c = Val p' h' ∧
      is_catalog h' p' out ∧ length out = length example_C_s1c) ∨
   (∃ key h',
      get_pofile_with_english_msgids "en" example_world french
        example_store_s1c = Exc (MissingDefaultTranslation key) h')).
Proof.
  apply (fails_fast_without_partial_output "en" example_world french
           example_store_s1c example_C_s1c example_D).
  - holds_inputs [5; 6; 7]%positive [2; 3]%positive.
  - by_computation.
Defined.

(** C5 on the French legal code of the example. *)
Lemma deep_copy_isolation_example :
  ∃ h',
    (∀ l o, example_store !! l = Some o → h' !! l = Some o) ∧
    inputs "en" example_world french h' example_C example_D ∧
    ((∃ p' ls' out,
        get_pofile_with_english_msgids "en" example_world french
          example_store = Val p' h' ∧
        pofile_at h' p' ls' out ∧
        example_store !! p' = None ∧
        Forall (λ l, example_store !! l = None) ls') ∨
     (∃ e, get_pofile_with_english_msgids "en" example_world french
             example_store = Exc e h')).
Proof.
  apply (deep_copy_isolation "en" example_world french example_store
           example_C example_D).
  holds_inputs [5; 6]%positive [2; 3]%positive.
Defined.

(** C6 on the French legal code of the example: the call returns the new
    file [7], with the items [8] and [9]. *)
Lemma order_preservation_example :
  ∃ out,
    is_catalog
      (<[7 := ObjFile [8; 9]]>
       (<[8 := ObjEntry (mkPOEntry "Adapted Material" "Matériel Adapté")]>
       (<[9 := ObjEntry (mkPOEntry "Copyright" "Droit d'auteur")]>
        example_store)))%positive 7%positive out ∧
    length out = length example_C ∧
    ∀ i old, example_C !! i = Some old →
      ∃ new, out !! i = Some new ∧
        (language_code french = "en" →
           msgid new = msgstr old ∧ msgstr new = "") ∧
        (language_code french ≠ "en" →
           text_for example_D (msgid old) = Some (msgid new) ∧
           msgstr new = msgstr old).
Proof.
  apply (order_preservation "en" example_world french example_store
           example_C example_D).
  - holds_inputs [5; 6]%positive [2; 3]%positive.
  - vm_compute. reflexivity.
Defined.

(** C7 on the two stores of the example. *)
Lemma deterministic_example :
  outcome (get_pofile_with_english_msgids "en" example_world french
             example_store)
  = outcome (get_pofile_with_english_msgids "en" example_world' french
               example_store') ∧
  is_Some (outcome (get_pofile_with_english_msgids "en" example_world french
                      example_store)).
Proof.
  apply (deterministic "en" example_world example_world' french french
           example_store example_store' example_C example_D).
  - holds_inputs [5; 6]%positive [2; 3]%positive.
  - holds_inputs [12; 11]%positive [21; 22]%positive.
  - reflexivity.
Defined.

(** C8 on the stores of the example. *)
Lemma specification_example_stores :
  (∃ p' h',
     get_pofile_with_english_msgids "en" example_world french example_store
       = Val p' h' ∧
     is_catalog h' p'
       [mkPOEntry "Adapted Material" "Matériel Adapté";
        mkPOEntry "Copyright" "Droit d'auteur"]) ∧
  (∃ h',
     get_pofile_with_english_msgids "en" example_world french
       example_store_s1c = Exc (MissingDefaultTranslation "s1c") h').
Proof.
  split.
  - apply (specification_example "en" example_world french example_store
             example_C).
    + holds_inputs [5; 6]%positive [2; 3]%positive.
    + by_computation.
    + reflexivity.
  - apply (specification_example "en" example_world french example_store_s1c
             example_C_s1c).
    + holds_inputs [5; 6; 7]%positive [2; 3]%positive.
    + by_computation.
    + by_computation.
    + intros key Hkey. cbn in Hkey.
      apply elem_of_cons in Hkey as [->|Hkey]; [by left|].
      apply elem_of_cons in Hkey as [->|Hkey]; [by right; right|].
      apply list_elem_of_singleton in Hkey as ->. by right; left.
Defined.

(** C9 on the English catalog with the key [s1a] twice. *)
Lemma duplicate_keys_last_wins_example :
  (∀ ls, is_entries example_store_twice ls example_D_twice →
     ∃ m, dict_comprehension ∅ ls example_store_twice
            = Val m example_store_twice ∧
          m !! "s1a" = Some "Adaptation") ∧
  ((∀ key, key ∈ keys example_C → key ∈ keys example_D_twice) →
   ∃ p' h' out,
     get_pofile_with_english_msgids "en" example_world french
       example_store_twice = Val p' h' ∧
     is_catalog h' p' out ∧
     Forall2 (λ old new, msgid old = "s1a" → msgid new = "Adaptation")
       example_C out).
Proof.
  apply (duplicate_keys_last_wins "en" example_world french
           example_store_twice example_C example_D_twice
           [mkPOEntry "s1a" "Adapted Material"; mkPOEntry "s1b" "Copyright"]
           (mkPOEntry "s1a" "Adaptation") []).
  - holds_inputs [5; 6]%positive [2; 3; 7]%positive.
  - by_computation.
  - reflexivity.
  - by_computation.
Defined.

(** Why [pofile_at] asks for distinct items: [deepcopy] keeps the sharing
    of an entry that a file holds twice, and the loop then assigns to the
    one copy twice. *)
Example aliased_entry_assigned_twice :
  outcome (get_pofile_with_english_msgids "en" example_world english
             aliased_store)
  = Some (inr [mkPOEntry "" ""; mkPOEntry "" ""]).
Proof. vm_compute. reflexivity. Qed.

(** The examples of the docstrings: the file of the BY-NC 4.0 French
    translation, and branch names. *)
Example translation_filename_by_nc_fr :
  translation_filename example_world
    (mkLegalCode (mkLicense "by-nc" "4.0" "") "fr")
  = "/cc-licenses-data/translations/by-nc/4.0/by-nc_4.0_fr.po".
Proof. reflexivity. Qed.

Example branch_name_cc4 :
  branch_name (mkLegalCode (mkLicense "by-nc" "4.0" "") "sr_Latn")
  = "cc4-sr-latn".
Proof. reflexivity. Qed.

Example branch_name_jurisdiction :
  branch_name (mkLegalCode (mkLicense "BY-NC" "3.0" "th") "zh_Hans")
  = "by-nc-30-zh-hans-th".
Proof. reflexivity. Qed.

(** * More properties of the module *)

(** ** [get_pofile_with_english_msgids]: the query, the English catalog *)

Lemma with_messages_ext d1 d2 C :
  (∀ key, key ∈ keys C → d1 !! key = d2 !! key) →
  with_messages d1 C = with_messages d2 C.
Proof.
  induction C as [|e C IH]; intros Hagree; cbn; [done|].
  rewrite <-(Hagree (msgid e)) by left.
  rewrite IH; [done|]. intros key Hkey. apply Hagree. by right.
Qed.

Section MoreReconciliation.

Variable DEFAULT_LANGUAGE_CODE : string.

Local Abbreviation run :=
  (get_pofile_with_english_msgids DEFAULT_LANGUAGE_CODE).
Local Abbreviation inputs := (inputs DEFAULT_LANGUAGE_CODE).

(** X1. For another language than the default one, when the query for the
    English legal code raises, the call raises that exception, not the
    [ValueError], and no object of the store it started in has changed. *)
Theorem query_error_propagates w self h C e :
  is_catalog h (pofile_of w self) C →
  language_code self ≠ DEFAULT_LANGUAGE_CODE →
  objects_get w (license self) DEFAULT_LANGUAGE_CODE = inl e →
  ∃ h', run w self h = Exc e h' ∧
        ∀ l o, h !! l = Some o → h' !! l = Some o.
Proof.
  intros [ls HC] Hlang Hget.
  destruct (deepcopy_spec _ _ _ _ HC)
    as (p' & ls' & h1 & Hcopy & Hsub & _).
  exists h1. split; [|intros l o Hl; by eapply lookup_weaken].
  unfold get_pofile_with_english_msgids, get_pofile.
  rewrite (bind_val _ _ h (pofile_of w self) h) by done.
  rewrite (bind_val _ _ _ _ _ Hcopy).
  rewrite decide_False by done.
  apply bind_exc. unfold get_english_pofile.
  rewrite decide_True by done. by rewrite Hget.
Qed.

(** X2. The English catalog counts only through the texts it has for the
    keys of [C]: two calls on [C] whose English catalogs agree on these
    keys have the same outcome, whatever else the two catalogs hold. *)
Theorem only_texts_of_used_keys_count w1 w2 self1 self2 h1 h2 C D1 D2 :
  inputs w1 self1 h1 C D1 →
  inputs w2 self2 h2 C D2 →
  language_code self1 ≠ DEFAULT_LANGUAGE_CODE →
  language_code self2 ≠ DEFAULT_LANGUAGE_CODE →
  (∀ key, key ∈ keys C → text_for D1 key = text_for D2 key) →
  outcome (run w1 self1 h1) = outcome (run w2 self2 h2).
Proof.
  intros Hin1 Hin2 Hlang1 Hlang2 Hagree.
  rewrite (outcome_on_values _ _ _ _ _ _ Hin1).
  rewrite (outcome_on_values _ _ _ _ _ _ Hin2).
  unfold on_values. rewrite !is_default_false by done.
  rewrite (with_messages_ext (key_to_message D1) (key_to_message D2)); [done|].
  intros key Hkey. rewrite !key_to_message_lookup. by apply Hagree.
Qed.

(** X3. A call for another language that returns keeps the keys distinct,
    when the keys of [C] are distinct and the English catalog has
    different texts for different keys of [C]. *)
Theorem distinct_keys_preserved w self h C D p' h' :
  inputs w self h C D →
  language_code self ≠ DEFAULT_LANGUAGE_CODE →
  run w self h = Val p' h' →
  NoDup (keys C) →
  (∀ key1 key2, key1 ∈ keys C → key2 ∈ keys C →
     text_for D key1 = text_for D key2 → key1 = key2) →
  ∃ out, is_catalog h' p' out ∧ NoDup (keys out).
Proof.
  intros Hin Hlang Hval Hnd Hinj.
  destruct (run_translation _ _ _ _ _ _ Hin Hlang) as (h'' & _ & Hrun).
  destruct (with_messages (key_to_message D) C) as [key|out] eqn:Hout.
  { congruence. }
  destruct Hrun as (p'' & ls' & Hrun & _ & Hfile & _).
  rewrite Hval in Hrun. injection Hrun as <- <-.
  exists out. split; [by exists ls'|].
  apply with_messages_inr in Hout.
  eapply (Forall2_NoDup
            (λ key key', key ∈ keys C ∧ text_for D key = Some key'));
    [| |exact Hnd].
  - intros key1 key2 key' [Hk1 Ht1] [Hk2 Ht2]. apply Hinj; congruence.
  - unfold keys. apply Forall2_fmap.
    apply Forall2_same_length_lookup. split; [by eapply Forall2_length|].
    intros i old new Hold Hnew.
    destruct (Forall2_lookup_l _ _ _ _ _ Hout Hold) as (new' & Hnew' & Hd & _).
    assert (new' = new) as -> by congruence.
    split.
    + apply list_elem_of_fmap. exists old. split; [done|].
      by eapply list_elem_of_lookup_2.
    + by rewrite <-key_to_message_lookup.
Qed.

End MoreReconciliation.

(** X4. The file of a translation depends on the license code through its
    lowercase form only: legal codes that differ in the case of the license
    code have one file, and so one cached catalog. *)
Theorem translation_file_ignores_case w self1 self2 :
  lower (license_code (license self1)) = lower (license_code (license self2)) →
  version (license self1) = version (license self2) →
  jurisdiction_code (license self1) = jurisdiction_code (license self2) →
  language_code self1 = language_code self2 →
  translation_filename w self1 = translation_filename w self2 ∧
  pofile_of w self1 = pofile_of w self2.
Proof.
  intros Hcode Hver Hjur Hlang. unfold pofile_of, translation_filename.
  by rewrite Hcode, Hver, Hjur, Hlang.
Qed.

(** ** [branch_name]: the parts, the characters *)

Lemma lower_app s t : lower (s +:+ t) = lower s +:+ lower t.
Proof. induction s as [|c s IH]; simpl; [done|]. by rewrite IH. Qed.

Lemma append_cons c (s t : string) : String c s +:+ t = String c (s +:+ t).
Proof. reflexivity. Qed.

Lemma append_assoc (s t u : string) : (s +:+ t) +:+ u = s +:+ (t +:+ u).
Proof.
  induction s as [|c s IH]; [done|]. by rewrite !append_cons, IH.
Qed.

Lemma replace_app old new s t :
  replace old new (s +:+ t) = replace old new s +:+ replace old new t.
Proof.
  induction s as [|c s IH]; simpl; [done|].
  destruct (Ascii.eqb c old); simpl; rewrite IH.
  - by rewrite append_assoc.
  - done.
Qed.

Lemma branch_normal_app s t :
  branch_normal (s +:+ t) = branch_normal s +:+ branch_normal t.
Proof. unfold branch_normal. by rewrite !replace_app, lower_app. Qed.

Lemma branch_normal_join parts :
  branch_normal (join "-" parts) = join "-" (branch_normal <$> parts).
Proof.
  induction parts as [|x [|y rest] IH]; [done..|].
  change (join "-" (x :: y :: rest)) with (x +:+ "-" +:+ join "-" (y :: rest)).
  rewrite !branch_normal_app, IH. done.
Qed.

(** X5. The branch name is the parts, each one normalised on its own
    (underscores to hyphens, periods removed, lowercase), joined by
    hyphens: the normalisation neither joins nor splits parts. *)
Theorem branch_name_part_by_part (self : LegalCode) :
  branch_name self = join "-" (branch_normal <$> branch_name_parts self).
Proof. unfold branch_name. apply branch_normal_join. Qed.

Lemma elem_of_join c sep parts :
  c ∈ list_ascii_of_string (join sep parts) →
  c ∈ list_ascii_of_string sep ∨
  ∃ part, part ∈ parts ∧ c ∈ list_ascii_of_string part.
Proof.
  induction parts as [|x [|y rest] IH].
  - by intros ?%not_elem_of_nil.
  - intros Hc. right. exists x. split; [left|done].
  - change (join sep (x :: y :: rest))
      with (x +:+ sep +:+ join sep (y :: rest)).
    rewrite !list_ascii_of_string_app, !elem_of_app.
    intros [Hc|[Hc|Hc]].
    + right. exists x. split; [left|done].
    + by left.
    + destruct (IH Hc) as [?|(part & Hpart & ?)]; [by left|].
      right. exists part. split; [by right|done].
Qed.

Lemma lower_code_char c :
  is_code_char c = true → c ≠ "_"%char → c ≠ "."%char →
  is_dns_char (lower_char c) = true.
Proof.
  destruct c as [[] [] [] [] [] [] [] []]; try done;
    intros _ Hu Hp; by (destruct Hu || destruct Hp).
Qed.

(** X6. When the license code, the version, the language code and the
    jurisdiction code are made of letters, digits, hyphens, underscores
    and periods, the branch name is made of lowercase letters, digits and
    hyphens. *)
Theorem branch_name_dns_characters (self : LegalCode) :
  all_chars is_code_char (license_code (license self)) →
  all_chars is_code_char (version (license self)) →
  all_chars is_code_char (language_code self) →
  all_chars is_code_char (jurisdiction_code (license self)) →
  all_chars is_dns_char (branch_name self).
Proof.
  intros Hcode Hver Hlang Hjur c Hc. unfold branch_name in Hc.
  apply elem_of_lower in Hc as (c0 & Hc0 & <-).
  apply elem_of_replace in Hc0 as [[Hc0 Hp]|Hc0];
    [|by apply not_elem_of_nil in Hc0].
  apply elem_of_replace in Hc0 as [[Hc0 Hu]|Hc0];
    [|by apply list_elem_of_singleton in Hc0 as ->].
  apply lower_code_char; [|done..].
  apply elem_of_join in Hc0 as [Hc0|(part & Hpart & Hc0)];
    [by apply list_elem_of_singleton in Hc0 as ->|].
  assert (Hparts : part ∈ ["cc4"; license_code (license self);
                           version (license self); language_code self;
                           jurisdiction_code (license self)]).
  { unfold branch_name_parts in Hpart.
    destruct (startswith _ _ && _), (truthy _); cbn in Hpart; set_solver. }
  repeat (apply elem_of_cons in Hparts as [->|Hparts]); auto.
  - cbn in Hc0. repeat (apply elem_of_cons in Hc0 as [->|Hc0]); try done.
    by apply not_elem_of_nil in Hc0.
  - by apply not_elem_of_nil in Hparts.
Qed.

(** X7. All licenses whose code starts with [by], in version [4.0], have
    one branch per language and jurisdiction. *)
Theorem branch_name_by_4_shared (self1 self2 : LegalCode) :
  startswith (license_code (license self1)) "by" = true →
  startswith (license_code (license self2)) "by" = true →
  version (license self1) = "4.0" → version (license self2) = "4.0" →
  language_code self1 = language_code self2 →
  jurisdiction_code (license self1) = jurisdiction_code (license self2) →
  branch_name self1 = branch_name self2.
Proof.
  intros Hby1 Hby2 Hv1 Hv2 Hlang Hjur. unfold branch_name, branch_name_parts.
  by rewrite Hby1, Hby2, Hv1, Hv2, Hlang, Hjur.
Qed.




(** ** [fat_code] and [resource_slug] *)

Lemma upper_char_not_lower c : is_lower (upper_char c) = false.
Proof. by destruct c as [[] [] [] [] [] [] [] []]. Qed.

Lemma elem_of_upper c' s :
  c' ∈ list_ascii_of_string (upper s) →
  ∃ c, c ∈ list_ascii_of_string s ∧ upper_char c = c'.
Proof.
  induction s as [|c s IH]; simpl.
  - by intros ?%not_elem_of_nil.
  - intros [->|Hin]%elem_of_cons.
    + exists c. split; [left|done].
    + destruct (IH Hin) as (c0 & ? & ?). exists c0. split; [by right|done].
Qed.

(** X8. The fat code of a license, and so that of a legal code and the
    resource name, has no lowercase letter. *)
Theorem fat_code_upper_case (self : LegalCode) :
  all_chars (λ c, negb (is_lower c)) (license_fat_code (license self)) ∧
  fat_code self = license_fat_code (license self) ∧
  resource_name (license self) = license_fat_code (license self).
Proof.
  split; [|done]. intros c Hc. unfold license_fat_code in Hc.
  apply elem_of_upper in Hc as (c0 & _ & <-).
  by rewrite upper_char_not_lower.
Qed.

(** X9. The fat code of a license whose code starts with [by] starts with
    [CC BY]. *)
Theorem fat_code_cc_prefix (self : License) :
  startswith (license_code self) "by" = true →
  ∃ rest, license_fat_code self = "CC BY" +:+ rest.
Proof.
  intros Hby. unfold license_fat_code. rewrite Hby.
  apply startswith_by in Hby as [rest ->].
  destruct (truthy (jurisdiction_code self)); by eexists.
Qed.

Lemma code_char_slug_char c :
  is_code_char c = true → c ≠ "."%char → is_slug_char c = true.
Proof.
  by destruct c as [[] [] [] [] [] [] [] []].
Qed.

(** X10. When the license code, the version and the jurisdiction code are
    made of letters, digits, hyphens, underscores and periods, the
    resource slug is made of letters, digits, underscores and hyphens. *)
Theorem resource_slug_characters (self : License) :
  all_chars is_code_char (license_code self) →
  all_chars is_code_char (version self) →
  all_chars is_code_char (jurisdiction_code self) →
  all_chars is_slug_char (resource_slug self).
Proof.
  intros Hcode Hver Hjur c Hc. unfold resource_slug in Hc.
  apply elem_of_replace in Hc as [[Hc Hp]|Hc];
    [|by apply not_elem_of_nil in Hc].
  apply code_char_slug_char; [|done].
  destruct (truthy (jurisdiction_code self));
    rewrite !list_ascii_of_string_app, !elem_of_app in Hc;
    cbn in Hc; rewrite ?list_elem_of_singleton in Hc;
    destruct_or!; subst; auto.
Qed.

(** ** [level_of_freedom] *)

Lemma prefix_append sub s :
  String.prefix sub s = true ↔ ∃ rest, s = sub +:+ rest.
Proof.
  revert s. induction sub as [|c sub IH]; intros s.
  - split; [intros _; by exists s|]. intros _. by destruct s.
  - destruct s as [|c0 s]; cbn [String.prefix].
    + split; [done|]. by intros [rest ?].
    + destruct (ascii_dec c c0) as [<-|Hne].
      * rewrite IH. split; intros [rest Hrest]; exists rest.
        -- by rewrite append_cons, <-Hrest.
        -- rewrite append_cons in Hrest. congruence.
      * split; [done|]. intros [rest Hrest].
        rewrite append_cons in Hrest. congruence.
Qed.

(** [find] is not [-1] exactly on the strings in which [sub] occurs. *)
Lemma find_from_occurs s sub : ∀ i,
  (find_from i s sub > -1)%Z ↔ ∃ before rest, s = before +:+ sub +:+ rest.
Proof.
  induction s as [|c s IH]; intros i; cbn [find_from].
  - destruct (String.prefix sub "") eqn:Hpre.
    + split; [|lia]. intros _. apply prefix_append in Hpre as [rest ->].
      by exists "", rest.
    + split; [lia|]. intros (before & rest & Heq).
      destruct before; [|done].
      assert (String.prefix sub "" = true); [|congruence].
      apply prefix_append. by exists rest.
  - destruct (String.prefix sub (String c s)) eqn:Hpre.
    + split; [|lia]. intros _. apply prefix_append in Hpre as [rest ->].
      by exists "", rest.
    + rewrite IH. split; intros (before & rest & Heq).
      * exists (String c before), rest. by rewrite append_cons, <-Heq.
      * destruct before as [|c0 before].
        -- assert (String.prefix sub (String c s) = true); [|congruence].
           apply prefix_append. by exists rest.
        -- rewrite append_cons in Heq. injection Heq as -> ->.
           by exists before, rest.
Qed.

Lemma find_occurs s sub :
  (find s sub > -1)%Z ↔ ∃ before rest, s = before +:+ sub +:+ rest.
Proof. apply find_from_occurs. Qed.

(** X11. A license whose code has [nc] or [nd] in it is at the middle
    level of freedom. *)
Theorem nc_nd_middle_freedom FREEDOM_LEVEL_MAX FREEDOM_LEVEL_MID
    FREEDOM_LEVEL_MIN (self : License) :
  (∃ before rest, license_code self = before +:+ "nc" +:+ rest) ∨
  (∃ before rest, license_code self = before +:+ "nd" +:+ rest) →
  level_of_freedom FREEDOM_LEVEL_MAX FREEDOM_LEVEL_MID FREEDOM_LEVEL_MIN self
  = FREEDOM_LEVEL_MID.
Proof.
  intros Hocc. unfold level_of_freedom.
  assert (Hfind : (find (license_code self) "nc" > -1)%Z ∨
                  (find (license_code self) "nd" > -1)%Z).
  { destruct Hocc as [H|H]; [left|right]; by apply find_occurs. }
  rewrite bool_decide_eq_false_2.
  - destruct Hfind as [H|H].
    + rewrite (bool_decide_eq_true_2 _ H). by rewrite orb_true_r.
    + rewrite (bool_decide_eq_true_2 _ H). by rewrite orb_true_r.
  - intros Hin.
    repeat (apply elem_of_cons in Hin as [Heq|Hin]);
      [..|by apply not_elem_of_nil in Hin];
      rewrite Heq in Hfind; vm_compute in Hfind;
      by destruct Hfind.
Qed.

(** ** [definitions] and [downstreams] *)

(** The comprehension over [enumerate]: the item at a position gets the
    letter at that position. *)
Lemma enumerate_items_inr {A} LETTERS (make : ascii → string → A) items :
  ∀ i result,
  enumerate_items LETTERS make i items = inr result →
  length result = length items ∧
  ∀ j item, items !! j = Some item →
    ∃ c, String.get (i + j) LETTERS = Some c ∧
         result !! j = Some (make c item).
Proof.
  induction items as [|item0 items IH]; intros i result; cbn.
  - intros [= <-]. split; [done|]. intros j item Hj.
    by rewrite lookup_nil in Hj.
  - unfold letter. destruct (String.get i LETTERS) as [c|] eqn:Hget; [|done].
    destruct (enumerate_items LETTERS make (S i) items) as [e|rest] eqn:Hrest;
      [done|].
    intros [= <-]. destruct (IH _ _ Hrest) as [Hlen Hitems].
    split; [cbn; by rewrite Hlen|].
    intros [|j] item Hj; cbn in Hj.
    + injection Hj as <-. exists c. by rewrite Nat.add_0_r.
    + destruct (Hitems j item Hj) as (c' & Hc' & Hres).
      exists c'. split; [|done]. by rewrite <-Nat.add_succ_comm.
Qed.

(** The branches of a license code, one by one. *)
Ltac license_code_cases code :=
  destruct (decide (code = "by-sa")) as [->|?];
  [|destruct (decide (code = "by")) as [->|?];
    [|destruct (decide (code = "by-nc")) as [->|?];
      [|destruct (decide (code = "by-nd")) as [->|?];
        [|destruct (decide (code = "by-nc-nd")) as [->|?];
          [|destruct (decide (code = "by-nc-sa")) as [->|?]]]]]].

Ltac other_license_code :=
  unfold optional_definitions; rewrite ?decide_False by done;
  rewrite ?bool_decide_eq_false_2 by set_solver.

(** X12. For every license code, [definitions] raises neither the
    [ValueError] of [index] nor the [IndexError] of [LETTERS[i]]: every
    [insert_after] finds its anchor, and there are ten to fourteen
    definitions, fewer than letters. *)
Theorem definitions_never_raises w translate (self : LegalCode) :
  ∃ names items,
    expected_definitions self = inr names ∧
    definitions w translate self = inr items ∧
    (10 ≤ length names ≤ 14)%nat ∧ length items = length names.
Proof.
  destruct self as [[code ver jur] lang].
  unfold definitions, expected_definitions. cbn [license license_code].
  license_code_cases code; try other_license_code;
    (eexists _, _; split_and!; [reflexivity|reflexivity|cbn; lia..]).
Qed.

(** X13. The item of [definitions] at a position has the identifier [s1]
    with the lowercase letter of that position, the message key
    [s1_definitions_] with the name at that position, and the translation
    of that key; the identifiers are all different. *)
Theorem definitions_items w translate (self : LegalCode) names items :
  expected_definitions self = inr names →
  definitions w translate self = inr items →
  (∀ i name, names !! i = Some name →
     ∃ c, String.get i ascii_lowercase = Some c ∧
          items !! i = Some
            (mkDefinition_item ("s1" +:+ String c "")
               ("s1_definitions_" +:+ name)
               (translate_of w translate self
                  ("s1_definitions_" +:+ name)))) ∧
  NoDup (definition_id <$> items).
Proof.
  intros Hnames Hitems. unfold definitions in Hitems.
  rewrite Hnames in Hitems.
  destruct (enumerate_items _ _ 0 names) as [e|result] eqn:Hresult; [done|].
  injection Hitems as <-.
  apply enumerate_items_inr in Hresult as [Hlen Hresult].
  split.
  - intros i name Hi. destruct (Hresult i name Hi) as (c & Hc & Hres).
    exists c. split; [done|]. by rewrite list_lookup_fmap, Hres.
  - apply NoDup_alt. intros i j id.
    rewrite !list_lookup_fmap, !fmap_Some.
    intros (itemi & (ri & Hri & ->)%fmap_Some & ->)
           (itemj & (rj & Hrj & ->)%fmap_Some & Hid).
    cbn in Hid.
    destruct (lookup_lt_is_Some_2 names i) as [ni Hni];
      [rewrite <-Hlen; by eapply lookup_lt_Some|].
    destruct (lookup_lt_is_Some_2 names j) as [nj Hnj];
      [rewrite <-Hlen; by eapply lookup_lt_Some|].
    destruct (Hresult i ni Hni) as (ci & Hci & Hri').
    destruct (Hresult j nj Hnj) as (cj & Hcj & Hrj').
    rewrite Hri in Hri'. injection Hri' as ->.
    rewrite Hrj in Hrj'. injection Hrj' as ->.
    cbn in Hid. injection Hid as Hc. subst cj.
    cbn in Hci, Hcj.
    assert (Hi26 : i < 26).
    { destruct (decide (i < 26)); [done|].
      do 26 (destruct i as [|i]; [lia|]). done. }
    assert (Hj26 : j < 26).
    { destruct (decide (j < 26)); [done|].
      do 26 (destruct j as [|j]; [lia|]). done. }
    clear -Hci Hcj Hi26 Hj26.
    do 26 (destruct i as [|i]; [
      do 26 (destruct j as [|j]; [congruence|]); lia|]).
    lia.
Qed.

(** X14. In every list of definitions the ten common names keep their
    order, and all names are in increasing order of strings; so the
    letters follow the alphabetical order of the names. *)
Theorem definitions_in_order (self : LegalCode) names :
  expected_definitions self = inr names →
  base_definitions `sublist_of` names ∧
  StronglySorted (λ name1 name2, (name1 <? name2)%string = true) names.
Proof.
  destruct self as [[code ver jur] lang].
  unfold expected_definitions. cbn [license license_code].
  license_code_cases code; try other_license_code;
    intros [= <-];
    (split;
     [ vm_compute;
       repeat first
         [apply sublist_nil | apply sublist_skip | apply sublist_cons]
     | by_computation ]).
Qed.

(** X15. For every license code, [downstreams] raises nothing; the offer
    comes first with the letter [A] and the absence of restrictions last,
    with [B], or with [C] for [by-sa] and [by-nc-sa], where the adapted
    material stands between them; every item has the translations of its
    two message keys. *)
Theorem downstreams_items w translate (self : LegalCode) :
  ∃ items,
    downstreams w translate self = inr items ∧
    downstream_id <$> items
    = (if bool_decide (license_code (license self) ∈ ["by-sa"; "by-nc-sa"])
       then ["s2a5A_offer"; "s2a5B_adapted_material";
             "s2a5C_no_restrictions"]
       else ["s2a5A_offer"; "s2a5B_no_restrictions"]) ∧
    ∀ item, item ∈ items →
      downstream_name_translation item
      = translate_of w translate self (downstream_msgid_name item) ∧
      downstream_text_translation item
      = translate_of w translate self (downstream_msgid_text item).
Proof.
  unfold downstreams.
  destruct (bool_decide (license_code (license self) ∈ ["by-sa"; "by-nc-sa"]));
    (eexists; split_and!; [reflexivity|reflexivity|]);
    intros item Hitem;
    repeat (apply elem_of_cons in Hitem as [->|Hitem]; [done|]);
    by apply not_elem_of_nil in Hitem.
Qed.

(** X16. The adapter's license is among the definitions of a legal code
    exactly when a clause uses it: when the downstream recipients have the
    offer for adapted material, or the license includes the clause on
    sharing adapted material. *)
Theorem adapters_license_defined_when_used w translate (self : LegalCode) :
  ∃ items downstream_items,
    definitions w translate self = inr items ∧
    downstreams w translate self = inr downstream_items ∧
    ("s1_definitions_adapters_license" ∈ definition_msgid <$> items ↔
     "s2a5_license_grant_downstream_adapted_material_name"
       ∈ downstream_msgid_name <$> downstream_items ∨
     include_share_adapted_material_clause (license self) = true).
Proof.
  destruct self as [[code ver jur] lang].
  unfold definitions, expected_definitions, downstreams,
    include_share_adapted_material_clause.
  cbn [license license_code].
  license_code_cases code; try other_license_code;
    (eexists _, _; split_and!; [reflexivity|reflexivity|]);
    by_computation.
Qed.

(** X17. A legal code whose definitions include the non-commercial one
    belongs to a license at the middle level of freedom. *)
Theorem noncommercial_defined_middle_freedom w translate
    FREEDOM_LEVEL_MAX FREEDOM_LEVEL_MID FREEDOM_LEVEL_MIN
    (self : LegalCode) items :
  definitions w translate self = inr items →
  "s1_definitions_noncommercial" ∈ definition_msgid <$> items →
  level_of_freedom FREEDOM_LEVEL_MAX FREEDOM_LEVEL_MID FREEDOM_LEVEL_MIN
    (license self)
  = FREEDOM_LEVEL_MID.
Proof.
  destruct self as [[code ver jur] lang].
  unfold definitions, expected_definitions, level_of_freedom.
  cbn [license license_code].
  license_code_cases code; try other_license_code;
    intros [= <-] Hin; try reflexivity;
    apply (bool_decide_pack _) in Hin; vm_compute in Hin; destruct Hin.
Qed.

(** ** [get_legalcode_for_language_code] *)

Lemma contains_char_app c s t :
  contains_char c (s +:+ t) = contains_char c s || contains_char c t.
Proof.
  induction s as [|c0 s IH]; simpl; [done|].
  by rewrite IH, orb_assoc.
Qed.

Lemma split_first_app sep s t :
  contains_char sep s = false →
  split_first sep (s +:+ String sep t) = s.
Proof.
  induction s as [|c0 s IH]; simpl.
  - by rewrite Ascii.eqb_refl.
  - intros [Hc0 Hs]%orb_false_elim. rewrite Hc0. by rewrite IH.
Qed.

Lemma truthy_app_cons s c t : truthy (s +:+ String c t) = true.
Proof. by destruct s. Qed.

(** X18. A language code with a hyphen that the license has no legal code
    for falls back, once, to what stands before its first hyphen: the
    call gives what the query for that language gives, a legal code or
    an exception. *)
Theorem language_falls_back_to_prefix get_language legal_codes_get
    (self : License) (lang rest : string) :
  contains_char "-" lang = false →
  legal_codes_get self (Some (lang +:+ "-" +:+ rest)) = inl DoesNotExist →
  get_legalcode_for_language_code get_language legal_codes_get self
    (Some (lang +:+ "-" +:+ rest))
  = match legal_codes_get self (Some lang) with
    | inr legalcode => inr legalcode
    | inl e => inl (Query e)
    end.
Proof.
  intros Hlang Hget. unfold get_legalcode_for_language_code.
  cbn [truthy_or_none].
  change (lang +:+ "-" +:+ rest) with (lang +:+ String "-" rest) in *.
  rewrite truthy_app_cons, Hget.
  rewrite contains_char_app. cbn [contains_char].
  rewrite Ascii.eqb_refl, orb_true_r. cbn zeta.
  by rewrite split_first_app.
Qed.

(** X19. There is no fallback unless the first query raises
    [DoesNotExist]: a legal code found for the language asked is
    returned, another exception is raised as it is; and [DoesNotExist]
    for a language code without hyphen is raised again. *)
Theorem no_fallback_otherwise get_language legal_codes_get
    (self : License) (language_code : string) :
  truthy language_code = true →
  (∀ legalcode,
     legal_codes_get self (Some language_code) = inr legalcode →
     get_legalcode_for_language_code get_language legal_codes_get self
       (Some language_code) = inr legalcode) ∧
  (∀ e,
     legal_codes_get self (Some language_code) = inl e →
     e ≠ DoesNotExist ∨ contains_char "-" language_code = false →
     get_legalcode_for_language_code get_language legal_codes_get self
       (Some language_code) = inl (Query e)).
Proof.
  intros Htruthy. unfold get_legalcode_for_language_code.
  cbn [truthy_or_none]. rewrite Htruthy. split.
  - by intros legalcode ->.
  - intros e -> [He|Hhyphen].
    + by destruct e.
    + destruct e; [done| |done]. by rewrite Hhyphen.
Qed.

(** X20. Without a language code, empty or [None], the current language
    is asked for; when there is none and the query on [None] finds no
    legal code, the call raises a [TypeError], not [DoesNotExist]. *)
Theorem no_language_type_error legal_codes_get (self : License)
    (language_code : option string) :
  truthy_or_none language_code = false →
  legal_codes_get self None = inl DoesNotExist →
  get_legalcode_for_language_code None legal_codes_get self language_code
  = inl TypeError.
Proof.
  intros Hfalsy Hget. unfold get_legalcode_for_language_code.
  by rewrite Hfalsy, Hget.
Qed.

(** * More properties on the example world *)

Ltac all_code_chars :=
  let c := fresh "c" in
  let Hc := fresh "Hc" in
  intros c Hc; cbn in Hc;
  repeat (apply elem_of_cons in Hc as [->|Hc]; [reflexivity|]);
  by apply not_elem_of_nil in Hc.

(** X1 on the French legal code, in the world without the English one. *)
Lemma query_error_propagates_example :
  ∃ h',
    get_pofile_with_english_msgids "en" example_world_no_english french
      example_store = Exc DoesNotExist h' ∧
    ∀ l o, example_store !! l = Some o → h' !! l = Some o.
Proof.
  apply (query_error_propagates "en" example_world_no_english french
           example_store example_C DoesNotExist).
  - holds_catalog [5; 6]%positive.
  - by_computation.
  - reflexivity.
Defined.

(** X2 on the English catalogs with and without the entry [s1z]. *)
Lemma only_texts_of_used_keys_count_example :
  outcome (get_pofile_with_english_msgids "en" example_world french
             example_store)
  = outcome (get_pofile_with_english_msgids "en" example_world french
               example_store_more).
Proof.
  apply (only_texts_of_used_keys_count "en" example_world example_world
           french french example_store example_store_more
           example_C example_D example_D_more).
  - holds_inputs [5; 6]%positive [2; 3]%positive.
  - holds_inputs [5; 6]%positive [2; 3; 7]%positive.
  - by_computation.
  - by_computation.
  - intros key Hkey. cbn in Hkey.
    repeat (apply elem_of_cons in Hkey as [->|Hkey]; [reflexivity|]).
    by apply not_elem_of_nil in Hkey.
Defined.

(** X3 on the French legal code of the example. *)
Lemma distinct_keys_preserved_example :
  ∃ out,
    is_catalog
      (<[7 := ObjFile [8; 9]]>
       (<[8 := ObjEntry (mkPOEntry "Adapted Material" "Matériel Adapté")]>
       (<[9 := ObjEntry (mkPOEntry "Copyright" "Droit d'auteur")]>
        example_store)))%positive 7%positive out ∧
    NoDup (keys out).
Proof.
  apply (distinct_keys_preserved "en" example_world french example_store
           example_C example_D).
  - holds_inputs [5; 6]%positive [2; 3]%positive.
  - by_computation.
  - vm_compute. reflexivity.
  - by_computation.
  - intros key1 key2 Hkey1 Hkey2. cbn in Hkey1, Hkey2.
    repeat (apply elem_of_cons in Hkey1 as [->|Hkey1]);
      repeat (apply elem_of_cons in Hkey2 as [->|Hkey2]);
      try done; by (apply not_elem_of_nil in Hkey1 ||
                    apply not_elem_of_nil in Hkey2).
Defined.

(** X4 on the license codes [BY-SA] and [by-sa]. *)
Lemma translation_file_ignores_case_example :
  translation_filename example_world
    (mkLegalCode (mkLicense "BY-SA" "4.0" "") "fr")
  = translation_filename example_world french ∧
  pofile_of example_world (mkLegalCode (mkLicense "BY-SA" "4.0" "") "fr")
  = pofile_of example_world french.
Proof.
  apply (translation_file_ignores_case example_world
           (mkLegalCode (mkLicense "BY-SA" "4.0" "") "fr") french);
    reflexivity.
Defined.

(** X6 on the French legal code of the example. *)
Lemma branch_name_dns_characters_example :
  all_chars is_dns_char (branch_name french).
Proof.
  apply (branch_name_dns_characters french); all_code_chars.
Defined.

(** X7 on BY-SA 4.0 and BY-NC 4.0 in French. *)
Lemma branch_name_by_4_shared_example :
  branch_name french = branch_name french_by_nc.
Proof.
  apply (branch_name_by_4_shared french french_by_nc); reflexivity.
Defined.


(** X9 on BY-SA 4.0. *)
Lemma fat_code_cc_prefix_example :
  ∃ rest, license_fat_code by_sa_4 = "CC BY" +:+ rest.
Proof. apply (fat_code_cc_prefix by_sa_4). reflexivity. Defined.

(** X10 on BY-SA 4.0. *)
Lemma resource_slug_characters_example :
  all_chars is_slug_char (resource_slug by_sa_4).
Proof. apply (resource_slug_characters by_sa_4); all_code_chars. Defined.

(** X11 on BY-NC 4.0, with the levels 3, 2 and 1. *)
Lemma nc_nd_middle_freedom_example :
  level_of_freedom 3 2 1 (license french_by_nc) = 2%Z.
Proof.
  apply (nc_nd_middle_freedom 3 2 1 (license french_by_nc)).
  left. by exists "by-", "".
Defined.

(** X13 and X14 on BY-NC 4.0 in French. *)
Lemma definitions_items_example :
  (∀ i name,
     (base_definitions_by_nc !! i = Some name →
      ∃ c, String.get i ascii_lowercase = Some c ∧
           definitions_by_nc !! i = Some
             (mkDefinition_item ("s1" +:+ String c "")
                ("s1_definitions_" +:+ name)
                (translate_of example_world example_translate french_by_nc
                   ("s1_definitions_" +:+ name))))) ∧
  NoDup (definition_id <$> definitions_by_nc).
Proof.
  apply (definitions_items example_world example_translate french_by_nc
           base_definitions_by_nc definitions_by_nc); reflexivity.
Defined.

Lemma definitions_in_order_example :
  base_definitions `sublist_of` base_definitions_by_nc ∧
  StronglySorted (λ name1 name2, (name1 <? name2)%string = true)
    base_definitions_by_nc.
Proof.
  apply (definitions_in_order french_by_nc base_definitions_by_nc).
  reflexivity.
Defined.

(** X17 on BY-NC 4.0 in French, with the levels 3, 2 and 1. *)
Lemma noncommercial_defined_middle_freedom_example :
  level_of_freedom 3 2 1 (license french_by_nc) = 2%Z.
Proof.
  apply (noncommercial_defined_middle_freedom example_world
           example_translate 3 2 1 french_by_nc definitions_by_nc).
  - reflexivity.
  - by_computation.
Defined.

(** X18 on the language code [en-us], for a license in English only. *)
Lemma language_falls_back_to_prefix_example :
  get_legalcode_for_language_code None example_legal_codes_get by_sa_4
    (Some "en-us")
  = inr english.
Proof.
  apply (language_falls_back_to_prefix None example_legal_codes_get by_sa_4
           "en" "us"); reflexivity.
Defined.

(** X19 on the language code [en], for a license in English only. *)
Lemma no_fallback_otherwise_example :
  (∀ legalcode,
     example_legal_codes_get by_sa_4 (Some "en") = inr legalcode →
     get_legalcode_for_language_code None example_legal_codes_get by_sa_4
       (Some "en") = inr legalcode) ∧
  (∀ e,
     example_legal_codes_get by_sa_4 (Some "en") = inl e →
     e ≠ DoesNotExist ∨ contains_char "-" "en" = false →
     get_legalcode_for_language_code None example_legal_codes_get by_sa_4
       (Some "en") = inl (Query e)).
Proof.
  apply (no_fallback_otherwise None example_legal_codes_get by_sa_4 "en").
  reflexivity.
Defined.

(** X20 on a call without language code, for a license in English only. *)
Lemma no_language_type_error_example :
  get_legalcode_for_language_code None example_legal_codes_get by_sa_4 None
  = inl TypeError.
Proof.
  apply (no_language_type_error example_legal_codes_get by_sa_4 None);
    reflexivity.
Defined.
